(** * Rate limiter strategies of [Rate Limiter/main.py]

    A shallow embedding of the three admission-control strategies
    (fixed window counter, sliding window log, token bucket) and of the
    [RateLimiter] dispatcher, followed by the properties established about
    them.

    Modelling conventions:
    - a reading of [time.time()] is a rational number ([Q]); Python floats
      are read as exact rationals, so IEEE rounding is not part of the model;
    - Python [int] values are [Z];
    - every [dict] keyed by the request key is a [gmap string _];
    - a method that mutates [self] returns the new object next to its
      result; a method that may raise returns an [outcome]. *)

From Stdlib Require Import ZArith QArith Lqa Lia List Bool Sorted.
From stdpp Require Import gmap strings list fin_maps.

Local Open Scope Z_scope.

(** ** Python primitives used by the source *)

Module Py.

Inductive exn : Type :=
| ZeroDivisionError.

Inductive outcome (A : Type) : Type :=
| Returned (a : A)
| Raised (e : exn).
Arguments Returned {A} a.
Arguments Raised {A} e.

(** [int(x)] on a float: truncation toward zero. *)
Definition int_ (x : Q) : Z := Z.quot (Qnum x) (Z.pos (Qden x)).

(** [a % b] on integers: floored remainder, [ZeroDivisionError] on [b = 0]. *)
Definition mod_ (a b : Z) : outcome Z :=
  if b =? 0 then Raised ZeroDivisionError else Returned (a mod b).

(** [a < b] and [a >= b] on numbers. *)
Definition lt (a b : Q) : bool := negb (Qle_bool b a).
Definition ge (a b : Q) : bool := Qle_bool b a.

(** [min(a, b)]: [b] when [b < a], otherwise the first argument. *)
Definition min_ (a b : Q) : Q := if lt b a then b else a.

(** [len(l)] *)
Definition len {A} (l : list A) : Z := Z.of_nat (length l).

End Py.

Import Py.

(** ** 1. Fixed window counter *)

Module FixedWindowCounterStrategy.

Record t : Type := Build {
  window_size : Z;
  max_requests : Z;
  store : gmap string (Z * Z)   (* key -> (count, window_start_time) *)
}.

Definition init (window_size max_requests : Z) : outcome t :=
  Returned (Build window_size max_requests ∅).

Definition set_store (self : t) (m : gmap string (Z * Z)) : t :=
  Build (window_size self) (max_requests self) m.

(** [current_time - (current_time % window_size)] *)
Definition window_start_of (self : t) (time_time : Q) : outcome Z :=
  let current_time := int_ time_time in
  match mod_ current_time (window_size self) with
  | Raised e => Raised e
  | Returned r => Returned (current_time - r)
  end.

Definition allow (self : t) (key : string) (time_time : Q)
  : outcome (bool * t) :=
  match window_start_of self time_time with
  | Raised e => Raised e
  | Returned window_start =>
      let '(count, last_window) :=
        default (0, window_start) (store self !! key) in
      if negb (last_window =? window_start) then
        Returned (true, set_store self (<[key := (1, window_start)]> (store self)))
      else if count <? max_requests self then
        Returned (true, set_store self (<[key := (count + 1, window_start)]> (store self)))
      else
        Returned (false, self)
  end.

End FixedWindowCounterStrategy.

(** ** 2. Sliding window log *)

Module SlidingWindowLogStrategy.

Record t : Type := Build {
  window_size : Z;
  max_requests : Z;
  logs : gmap string (list Q)   (* key -> deque of timestamps, oldest first *)
}.

Definition init (window_size max_requests : Z) : outcome t :=
  Returned (Build window_size max_requests ∅).

Definition set_logs (self : t) (m : gmap string (list Q)) : t :=
  Build (window_size self) (max_requests self) m.

(** [while log and log[0] < window_start: log.popleft()] *)
Fixpoint purge (window_start : Q) (log : list Q) : list Q :=
  match log with
  | [] => []
  | t0 :: rest =>
      if lt t0 window_start then purge window_start rest else log
  end.

Definition window_start_of (self : t) (now : Q) : Q :=
  (now - inject_Z (window_size self))%Q.

(** The deque is created on first sight of the key and mutated in place,
    so the purged log is what the dictionary holds afterwards, also when
    the call is denied. *)
Definition allow (self : t) (key : string) (now : Q) : bool * t :=
  let window_start := window_start_of self now in
  let log := purge window_start (default [] (logs self !! key)) in
  if len log <? max_requests self then
    (true, set_logs self (<[key := log ++ [now]]> (logs self)))
  else
    (false, set_logs self (<[key := log]> (logs self))).

End SlidingWindowLogStrategy.

(** ** 3. Token bucket *)

Module TokenBucketStrategy.

Record t : Type := Build {
  refill_rate : Q;                 (* tokens per second *)
  capacity : Z;
  buckets : gmap string (Q * Q)    (* key -> (tokens, last_refill_time) *)
}.

Definition init (refill_rate : Q) (capacity : Z) : outcome t :=
  Returned (Build refill_rate capacity ∅).

Definition set_buckets (self : t) (m : gmap string (Q * Q)) : t :=
  Build (refill_rate self) (capacity self) m.

(** [min(capacity, tokens + elapsed * refill_rate)] *)
Definition refill (self : t) (tokens last_time now : Q) : Q :=
  let elapsed := (now - last_time)%Q in
  min_ (inject_Z (capacity self)) (tokens + elapsed * refill_rate self)%Q.

Definition allow (self : t) (key : string) (now : Q) : bool * t :=
  let '(tokens, last_time) :=
    default (inject_Z (capacity self), now) (buckets self !! key) in
  let tokens := refill self tokens last_time now in
  if ge tokens 1 then
    (true, set_buckets self (<[key := ((tokens - 1)%Q, now)]> (buckets self)))
  else
    (false, set_buckets self (<[key := (tokens, now)]> (buckets self))).

End TokenBucketStrategy.

Module FW := FixedWindowCounterStrategy.
Module SW := SlidingWindowLogStrategy.
Module TB := TokenBucketStrategy.

(** ** 4. The strategy interface and the dispatcher *)

Inductive RateLimitStrategy : Type :=
| FixedWindowCounter (s : FW.t)
| SlidingWindowLog (s : SW.t)
| TokenBucket (s : TB.t).

Definition strategy_allow (s : RateLimitStrategy) (key : string) (now : Q)
  : outcome (bool * RateLimitStrategy) :=
  match s with
  | FixedWindowCounter fw =>
      match FW.allow fw key now with
      | Returned (b, fw') => Returned (b, FixedWindowCounter fw')
      | Raised e => Raised e
      end
  | SlidingWindowLog sw =>
      let '(b, sw') := SW.allow sw key now in Returned (b, SlidingWindowLog sw')
  | TokenBucket tb =>
      let '(b, tb') := TB.allow tb key now in Returned (b, TokenBucket tb')
  end.

Module RateLimiter.

Record t : Type := Build { strategy : RateLimitStrategy }.

Definition init (strategy : RateLimitStrategy) : t := Build strategy.

Definition allow_request (self : t) (key : string) (now : Q)
  : outcome (bool * t) :=
  match strategy_allow (strategy self) key now with
  | Returned (b, s') => Returned (b, Build s')
  | Raised e => Raised e
  end.

End RateLimiter.

(** ** 5. Call histories

    The middleware asks the limiter once per request; a history is the list
    of (key, clock reading) pairs of those requests in processing order.  A
    call that raises does so before it has touched the dictionary, so the
    strategy is left as it was. *)

Definition decision {S : Type} (o : outcome (bool * S)) : outcome bool :=
  match o with
  | Returned (b, _) => Returned b
  | Raised e => Raised e
  end.

Definition after {S : Type} (s : S) (o : outcome (bool * S)) : S :=
  match o with
  | Returned (_, s') => s'
  | Raised _ => s
  end.

Fixpoint run (s : RateLimitStrategy) (calls : list (string * Q))
  : list (outcome bool) * RateLimitStrategy :=
  match calls with
  | [] => ([], s)
  | (key, now) :: rest =>
      let o := strategy_allow s key now in
      let '(outs, s') := run (after s o) rest in
      (decision o :: outs, s')
  end.

(** The calls of one key at the given clock readings. *)
Definition calls_of (key : string) (times : list Q) : list (string * Q) :=
  map (λ now, (key, now)) times.

(** The decisions of a history that belong to the calls of [key]. *)
Fixpoint decisions_for (key : string) (calls : list (string * Q))
    (outs : list (outcome bool)) : list (outcome bool) :=
  match calls, outs with
  | (k, _) :: calls', o :: outs' =>
      if String.eqb k key then o :: decisions_for key calls' outs'
      else decisions_for key calls' outs'
  | _, _ => []
  end.

(** The sub-history of the calls of [key]. *)
Definition only_key (key : string) (calls : list (string * Q))
  : list (string * Q) :=
  List.filter (λ c, String.eqb (fst c) key) calls.

(** The clock readings of the calls that returned [True]. *)
Fixpoint allowed_times (times : list Q) (outs : list (outcome bool)) : list Q :=
  match times, outs with
  | t0 :: times', Returned true :: outs' => t0 :: allowed_times times' outs'
  | _ :: times', _ :: outs' => allowed_times times' outs'
  | _, _ => []
  end.

(** Number of calls that returned [True]. *)
Definition count_allowed (outs : list (outcome bool)) : Z :=
  len (List.filter (λ o, match o with Returned true => true | _ => false end) outs).

(** Clock readings that never go backward. *)
Fixpoint nondecreasing (times : list Q) : bool :=
  match times with
  | [] => true
  | t0 :: rest =>
      match rest with
      | [] => true
      | t1 :: _ => Qle_bool t0 t1 && nondecreasing rest
      end
  end.

(** ** 6. Configuration and per-key state of a strategy *)

Inductive config : Type :=
| FixedWindowConfig (window_size max_requests : Z)
| SlidingWindowConfig (window_size max_requests : Z)
| TokenBucketConfig (refill_rate : Q) (capacity : Z).

Definition config_of (s : RateLimitStrategy) : config :=
  match s with
  | FixedWindowCounter fw =>
      FixedWindowConfig (FW.window_size fw) (FW.max_requests fw)
  | SlidingWindowLog sw =>
      SlidingWindowConfig (SW.window_size sw) (SW.max_requests sw)
  | TokenBucket tb =>
      TokenBucketConfig (TB.refill_rate tb) (TB.capacity tb)
  end.

Inductive key_state : Type :=
| FixedWindowState (e : option (Z * Z))
| SlidingWindowState (e : option (list Q))
| TokenBucketState (e : option (Q * Q)).

Definition key_state_of (s : RateLimitStrategy) (key : string) : key_state :=
  match s with
  | FixedWindowCounter fw => FixedWindowState (FW.store fw !! key)
  | SlidingWindowLog sw => SlidingWindowState (SW.logs sw !! key)
  | TokenBucket tb => TokenBucketState (TB.buckets tb !! key)
  end.

(** ** 7. Predicates used in the statements *)

(** [t0] lies in the trailing window of length [window_size] that ends at
    [now], both ends included. *)
Definition in_trailing_window (sw : SW.t) (now t0 : Q) : bool :=
  Qle_bool (SW.window_start_of sw now) t0 && Qle_bool t0 now.

(** The stored entry of [key], if any, belongs to another window than the
    one starting at [W]: no request of [key] is counted in that window. *)
Definition fresh_in_window (fw : FW.t) (key : string) (W : Z) : bool :=
  match FW.store fw !! key with
  | Some (_, last_window) => negb (last_window =? W)
  | None => true
  end.

(** Every clock reading of [times] falls into the aligned window that
    starts at [W]. *)
Definition all_in_window (fw : FW.t) (W : Z) (times : list Q) : bool :=
  forallb (λ now, match FW.window_start_of fw now with
                  | Returned w => w =? W
                  | Raised _ => false
                  end) times.

(** The constructor refused the configuration. *)
Definition rejected {A : Type} (o : outcome A) : Prop :=
  ∃ e, o = Raised e.

(** The token count stored for [key], if any. *)
Definition stored_tokens (tb : TB.t) (key : string) : option Q :=
  fst <$> TB.buckets tb !! key.

(** What a call that clamps a negative elapsed time to zero would do for a
    key whose bucket was last refilled after [now]: decide as a call at
    [last_time] does and keep the same number of tokens. *)
Definition backward_clock_clamped (tb : TB.t) (key : string) (now : Q) : Prop :=
  ∀ tokens last_time,
    TB.buckets tb !! key = Some (tokens, last_time) →
    (now < last_time)%Q →
    (TB.allow tb key now).1 = (TB.allow tb key last_time).1
    ∧ stored_tokens (TB.allow tb key now).2 key
      = stored_tokens (TB.allow tb key last_time).2 key.

(** What the log of [key] holds after a call at clock reading [last], in
    terms of [allowed], the readings of all calls allowed so far: exactly
    the allowed readings not older than the window start, in order, and no
    trailing window holds more than [max_requests] of them. *)
Definition log_invariant (sw : SW.t) (key : string) (allowed : list Q)
    (last : Q) : Prop :=
  default [] (SW.logs sw !! key)
    = List.filter (Qle_bool (SW.window_start_of sw last)) allowed
  ∧ StronglySorted Qle (default [] (SW.logs sw !! key))
  ∧ Forall (λ t0, (t0 <= last)%Q) allowed
  ∧ ∀ window_end : Q,
      len (List.filter (in_trailing_window sw window_end) allowed)
        <= SW.max_requests sw.

(** ** 8. Callers running at the same time

    [FixedWindowCounterStrategy.allow] takes no lock.  It reads the entry of
    the key from the dictionary (line 31) and writes the new entry back
    later (line 35 or 39); a second thread can run in between.  A thread is
    therefore modelled with two steps on the shared strategy: the read, which
    keeps [window_start], [count] and [last_window] in local variables, and
    the rest of the method, which decides on these local variables. *)

Module Threads.

Inductive thread : Type :=
| Start (time_time : Q)
| HasRead (window_start count last_window : Z)
| Finished (result : outcome bool).

Definition thread_step (key : string) (fw : FW.t) (th : thread)
  : FW.t * thread :=
  match th with
  | Start time_time =>
      match FW.window_start_of fw time_time with
      | Raised e => (fw, Finished (Raised e))
      | Returned window_start =>
          let '(count, last_window) :=
            default (0, window_start) (FW.store fw !! key) in
          (fw, HasRead window_start count last_window)
      end
  | HasRead window_start count last_window =>
      if negb (last_window =? window_start) then
        (FW.set_store fw (<[key := (1, window_start)]> (FW.store fw)),
         Finished (Returned true))
      else if count <? FW.max_requests fw then
        (FW.set_store fw (<[key := (count + 1, window_start)]> (FW.store fw)),
         Finished (Returned true))
      else
        (fw, Finished (Returned false))
  | Finished result => (fw, Finished result)
  end.

(** The thread with index [i] takes its next step. *)
Definition schedule_step (key : string) (st : FW.t * list thread) (i : nat)
  : FW.t * list thread :=
  match st.2 !! i with
  | Some th =>
      let '(fw', th') := thread_step key st.1 th in (fw', <[i := th']> st.2)
  | None => st
  end.

(** An interleaving is the list of thread indices in the order they step. *)
Definition run_schedule (key : string) (st : FW.t * list thread)
    (schedule : list nat) : FW.t * list thread :=
  fold_left (schedule_step key) schedule st.

(** Thread [first] runs both its steps, then thread [first + 1], and so on
    for [n] threads: no two calls overlap. *)
Fixpoint serial_schedule (first n : nat) : list nat :=
  match n with
  | O => []
  | S n' => first :: first :: serial_schedule (S first) n'
  end.

Definition all_finished (ths : list thread) : bool :=
  forallb (λ th, match th with Finished _ => true | _ => false end) ths.

Definition results (ths : list thread) : list (outcome bool) :=
  omap (λ th, match th with Finished r => Some r | _ => None end) ths.

(** Whatever the interleaving, once all the calls of [key] issued at the
    clock readings [times] have returned, exactly [min(N, max_requests)] of
    the [N] calls have returned [True]. *)
Definition exactly_max_requests_allowed (fw : FW.t) (key : string)
    (times : list Q) : Prop :=
  ∀ schedule : list nat,
    let final := run_schedule key (fw, map Start times) schedule in
    all_finished final.2 = true →
    count_allowed (results final.2)
      = Z.min (len times) (FW.max_requests fw).

End Threads.

(** ** 9. The Flask middleware

    [rate_limit_middleware] is registered with [before_request]: it runs
    before every request, with the remote address as the key.  Returning
    nothing lets the request through to its view; the pair it returns on a
    denial is the response, with status 429. *)

Module App.

Record response : Type := Response {
  body : list (string * string);   (* the dictionary given to [jsonify] *)
  status : Z
}.

Definition too_many_requests : response :=
  Response [("error", "Too many requests. Please wait.")] 429.

Definition rate_limit_middleware (rate_limiter : RateLimiter.t)
    (remote_addr : string) (now : Q)
  : outcome (option response * RateLimiter.t) :=
  let user_ip := remote_addr in
  match RateLimiter.allow_request rate_limiter user_ip now with
  | Raised e => Raised e
  | Returned (allowed, rate_limiter') =>
      if negb allowed then Returned (Some too_many_requests, rate_limiter')
      else Returned (None, rate_limiter')
  end.

(** The module-level objects of lines 118 and 119. *)
Definition strategy : RateLimitStrategy := TokenBucket (TB.Build 1 5 ∅).
Definition rate_limiter : RateLimiter.t := RateLimiter.init strategy.





End App.

(** ** 10. Further notions used in the statements *)

(** The keys a strategy holds an entry for. *)
Definition tracked (s : RateLimitStrategy) : gset string :=
  match s with
  | FixedWindowCounter fw => dom (FW.store fw)
  | SlidingWindowLog sw => dom (SW.logs sw)
  | TokenBucket tb => dom (TB.buckets tb)
  end.

(** The clock reading falls into the aligned window that starts at [W]. *)
Definition in_window (fw : FW.t) (W : Z) (now : Q) : bool :=
  match FW.window_start_of fw now with
  | Returned w => w =? W
  | Raised _ => false
  end.

(** The clock readings of a history. *)
Definition clock_of (calls : list (string * Q)) : list Q := map snd calls.

(** What the entry of [key] in a fixed window counter records, in terms of
    [allowed], the readings of the calls of [key] allowed so far, the last
    of them at or before [last]: the count of the stored window is the
    number of allowed calls in it, no allowed call lies in a later window,
    and no window holds more than [max_requests] allowed calls. *)
Definition counter_invariant (fw : FW.t) (key : string) (allowed : list Q)
    (last : Q) : Prop :=
  (∀ W : Z, len (List.filter (in_window fw W) allowed) <= FW.max_requests fw)
  ∧ match FW.store fw !! key with
    | None => allowed = []
    | Some (count, last_window) =>
        1 <= FW.max_requests fw
        ∧ len (List.filter (in_window fw last_window) allowed) = count
        ∧ (∀ W, FW.window_start_of fw last = Returned W → last_window <= W)
        ∧ Forall (λ t0, ∀ W, FW.window_start_of fw t0 = Returned W →
                             W <= last_window) allowed
    end.


(** * Properties *)

(** ** Python primitives *)

Lemma lt_true (a b : Q) : lt a b = true ↔ (a < b)%Q.
Proof.
  unfold lt. rewrite negb_true_iff, <- not_true_iff_false, Qle_bool_iff.
  split; [apply Qnot_le_lt | apply Qlt_not_le].
Qed.

Lemma lt_false (a b : Q) : lt a b = false ↔ (b <= a)%Q.
Proof. unfold lt. by rewrite negb_false_iff, Qle_bool_iff. Qed.

Lemma ge_true (a b : Q) : ge a b = true ↔ (b <= a)%Q.
Proof. unfold ge. apply Qle_bool_iff. Qed.

Lemma ge_false (a b : Q) : ge a b = false ↔ (a < b)%Q.
Proof.
  unfold ge. rewrite <- not_true_iff_false, Qle_bool_iff.
  split; [apply Qnot_le_lt | apply Qlt_not_le].
Qed.

Lemma min_le_r (a b : Q) : (min_ a b <= b)%Q.
Proof.
  unfold min_. destruct (lt b a) eqn:E; [lra |].
  apply lt_false in E. lra.
Qed.

Lemma min_le_l (a b : Q) : (min_ a b <= a)%Q.
Proof.
  unfold min_. destruct (lt b a) eqn:E; [| lra].
  apply lt_true in E. lra.
Qed.

Lemma min_of_le (a b : Q) : (b <= a)%Q → (min_ a b == b)%Q.
Proof.
  intros H. unfold min_. destruct (lt b a) eqn:E; [lra |].
  apply lt_false in E. lra.
Qed.

Lemma mod_Returned (a b r : Z) :
  mod_ a b = Returned r ↔ b ≠ 0 ∧ r = a mod b.
Proof.
  unfold mod_. destruct (Z.eqb_spec b 0); split.
  - discriminate.
  - intros [? _]. done.
  - intros [= <-]. done.
  - intros [_ ->]. done.
Qed.

(** ** Histories *)

Lemma run_cons (s : RateLimitStrategy) key now rest :
  run s ((key, now) :: rest) =
    (decision (strategy_allow s key now)
       :: (run (after s (strategy_allow s key now)) rest).1,
     (run (after s (strategy_allow s key now)) rest).2).
Proof. simpl. by destruct (run _ rest). Qed.

Lemma run_app (s : RateLimitStrategy) (h1 h2 : list (string * Q)) :
  run s (h1 ++ h2) =
    ((run s h1).1 ++ (run (run s h1).2 h2).1, (run (run s h1).2 h2).2).
Proof.
  revert s. induction h1 as [| [key now] h1 IH]; intros s.
  - simpl. by destruct (run s h2).
  - rewrite <- app_comm_cons, !run_cons, IH. done.
Qed.

Lemma run_length (s : RateLimitStrategy) (h : list (string * Q)) :
  length (run s h).1 = length h.
Proof.
  revert s. induction h as [| [key now] h IH]; intros s; [done |].
  rewrite run_cons. simpl. by rewrite IH.
Qed.

(** ** Fixed window counter *)

Section FixedWindow.

Variable key : string.

Lemma FW_window_start_Returned (fw : FW.t) (now : Q) (W : Z) :
  FW.window_start_of fw now = Returned W →
  FW.window_size fw ≠ 0.
Proof.
  unfold FW.window_start_of.
  destruct (mod_ _ _) as [r |] eqn:E; [| discriminate].
  apply mod_Returned in E. tauto.
Qed.

Lemma FW_window_start_set_store (fw : FW.t) m (now : Q) :
  FW.window_start_of (FW.set_store fw m) now = FW.window_start_of fw now.
Proof. done. Qed.

(** First request ever seen for the key. *)
Lemma FW_allow_absent (fw : FW.t) (now : Q) (W : Z) :
  FW.window_start_of fw now = Returned W →
  FW.store fw !! key = None →
  FW.allow fw key now =
    if 0 <? FW.max_requests fw
    then Returned (true, FW.set_store fw (<[key := (1, W)]> (FW.store fw)))
    else Returned (false, fw).
Proof.
  intros HW Hk. unfold FW.allow. rewrite HW, Hk. simpl.
  by rewrite Z.eqb_refl.
Qed.

(** The stored window is not the current one. *)
Lemma FW_allow_rollover (fw : FW.t) (now : Q) (W count last_window : Z) :
  FW.window_start_of fw now = Returned W →
  FW.store fw !! key = Some (count, last_window) →
  last_window ≠ W →
  FW.allow fw key now =
    Returned (true, FW.set_store fw (<[key := (1, W)]> (FW.store fw))).
Proof.
  intros HW Hk Hne. unfold FW.allow. rewrite HW, Hk. simpl.
  by destruct (Z.eqb_spec last_window W).
Qed.

(** The stored window is the current one. *)
Lemma FW_allow_same_window (fw : FW.t) (now : Q) (W count : Z) :
  FW.window_start_of fw now = Returned W →
  FW.store fw !! key = Some (count, W) →
  FW.allow fw key now =
    if count <? FW.max_requests fw
    then Returned (true, FW.set_store fw (<[key := (count + 1, W)]> (FW.store fw)))
    else Returned (false, fw).
Proof.
  intros HW Hk. unfold FW.allow. rewrite HW, Hk. simpl.
  by rewrite Z.eqb_refl.
Qed.

(** Calls of one key inside the window the key is already counted in:
    the remaining allowance is granted, everything after it is denied. *)
Lemma FW_run_same_window (W : Z) (times : list Q) :
  ∀ (fw : FW.t) (count : Z),
    (∀ now, now ∈ times → FW.window_start_of fw now = Returned W) →
    FW.store fw !! key = Some (count, W) →
    count <= FW.max_requests fw →
    let granted :=
      Nat.min (length times) (Z.to_nat (FW.max_requests fw - count)) in
    ∃ fw',
      run (FixedWindowCounter fw) (calls_of key times) =
        (replicate granted (Returned true)
           ++ replicate (length times - granted) (Returned false),
         FixedWindowCounter fw')
      ∧ FW.store fw' !! key = Some (count + Z.of_nat granted, W)
      ∧ FW.window_size fw' = FW.window_size fw
      ∧ FW.max_requests fw' = FW.max_requests fw.
Proof.
  induction times as [| now times IH]; intros fw count Hin Hk Hle granted.
  - exists fw. subst granted. simpl. rewrite Z.add_0_r. done.
  - assert (HW : FW.window_start_of fw now = Returned W)
      by (apply Hin; left).
    unfold calls_of. rewrite map_cons, run_cons. fold (calls_of key times).
    simpl strategy_allow.
    rewrite (FW_allow_same_window fw now W count HW Hk).
    destruct (Z.ltb_spec count (FW.max_requests fw)) as [Hlt | Hge].
    + simpl decision. simpl after.
      set (fw1 := FW.set_store fw _).
      destruct (IH fw1 (count + 1)) as (fw' & Hrun & Hk' & Hws & Hmax).
      * intros t Ht. subst fw1. rewrite FW_window_start_set_store.
        apply Hin. by right.
      * subst fw1. simpl. apply lookup_insert_eq.
      * simpl. lia.
      * assert (granted =
                  S (Nat.min (length times)
                       (Z.to_nat (FW.max_requests fw - (count + 1)))))
          as -> by (subst granted; cbn [length]; lia).
        exists fw'. rewrite Hrun. cbn [FW.max_requests fw1 FW.set_store].
        repeat split; try done.
        rewrite Hk'. cbn [FW.max_requests fw1 FW.set_store].
        f_equal. f_equal. lia.
    + simpl decision. simpl after.
      destruct (IH fw count) as (fw' & Hrun & Hk' & Hws & Hmax); try done.
      { intros t Ht. apply Hin. by right. }
      exists fw'. rewrite Hrun.
      assert (granted = 0%nat) as -> by (subst granted; lia).
      assert (Nat.min (length times)
                (Z.to_nat (FW.max_requests fw - count)) = 0%nat)
        as Hz by lia.
      rewrite Hz in *. simpl. rewrite Nat.sub_0_r. done.
Qed.

End FixedWindow.

Lemma all_in_window_cons (fw : FW.t) (W : Z) (now : Q) (times : list Q) :
  all_in_window fw W (now :: times) = true ↔
  FW.window_start_of fw now = Returned W ∧ all_in_window fw W times = true.
Proof.
  unfold all_in_window. simpl. rewrite andb_true_iff.
  destruct (FW.window_start_of fw now) as [w |]; [| intuition congruence].
  destruct (Z.eqb_spec w W); intuition congruence.
Qed.

Lemma all_in_window_elem (fw : FW.t) (W : Z) (times : list Q) :
  all_in_window fw W times = true →
  ∀ now, now ∈ times → FW.window_start_of fw now = Returned W.
Proof.
  induction times as [| t0 times IH]; intros H now Hin.
  - by apply elem_of_nil in Hin.
  - apply all_in_window_cons in H as [H0 H].
    apply elem_of_cons in Hin as [-> | Hin]; auto.
Qed.

Lemma all_in_window_set_store (fw : FW.t) m (W : Z) (times : list Q) :
  all_in_window (FW.set_store fw m) W times = all_in_window fw W times.
Proof. done. Qed.

(** C2.  Fixed window with [max_requests = N]: of [N + 1] calls for one key
    whose clock readings all fall into one aligned window in which the key
    has not been counted yet, the first [N] return [True] and the last one
    returns [False]. *)
Theorem fixed_window_grants_max_requests_then_denies
    (fw : FW.t) (key : string) (W : Z) (n : nat) (times : list Q) :
  FW.max_requests fw = Z.of_nat n →
  length times = S n →
  all_in_window fw W times = true →
  fresh_in_window fw key W = true →
  (0 < n)%nat ∨ FW.store fw !! key = None →
  (run (FixedWindowCounter fw) (calls_of key times)).1
    = replicate n (Returned true) ++ [Returned false].
Proof.
  intros Hmax Hlen Hin Hfresh Hpos.
  destruct times as [| now times]; [done |].
  injection Hlen as Hlen.
  apply all_in_window_cons in Hin as [HW Hin].
  unfold calls_of. rewrite map_cons, run_cons. fold (calls_of key times).
  simpl strategy_allow.
  assert (Hfirst :
    FW.allow fw key now =
      if 0 <? FW.max_requests fw
      then Returned (true, FW.set_store fw (<[key := (1, W)]> (FW.store fw)))
      else Returned (false, fw)).
  { unfold fresh_in_window in Hfresh.
    destruct (FW.store fw !! key) as [[count last_window] |] eqn:Hk.
    - destruct Hpos as [Hpos | ?]; [| done].
      apply negb_true_iff, Z.eqb_neq in Hfresh.
      rewrite (FW_allow_rollover key fw now W count last_window HW Hk Hfresh).
      by destruct (Z.ltb_spec 0 (FW.max_requests fw)); [| lia].
    - by apply FW_allow_absent. }
  rewrite Hfirst.
  destruct (Z.ltb_spec 0 (FW.max_requests fw)) as [Hlt | Hge].
  - simpl decision. simpl after.
    set (fw1 := FW.set_store fw _).
    destruct (FW_run_same_window key W times fw1 1)
      as (fw' & Hrun & _).
    + apply all_in_window_elem. unfold fw1.
      by rewrite all_in_window_set_store.
    + apply lookup_insert_eq.
    + simpl. lia.
    + rewrite Hrun. cbn [fst FW.max_requests fw1 FW.set_store].
      rewrite Hmax, Hlen.
      replace (Nat.min n (Z.to_nat (Z.of_nat n - 1))) with (n - 1)%nat by lia.
      replace (n - (n - 1))%nat with 1%nat by lia.
      destruct n as [| n]; [lia |].
      simpl. by rewrite Nat.sub_0_r.
  - assert (n = 0%nat) as -> by lia.
    destruct times; [| done]. done.
Qed.

Lemma fixed_window_grants_max_requests_then_denies_witness :
  (run (FixedWindowCounter (FW.Build 10 2 ∅))
     (calls_of "10.0.0.1" [100 # 1; 1015 # 10; 109 # 1]%Q)).1
    = [Returned true; Returned true; Returned false].
Proof.
  apply (fixed_window_grants_max_requests_then_denies
           (FW.Build 10 2 ∅) "10.0.0.1" 100 2 [100 # 1; 1015 # 10; 109 # 1]%Q).
  - reflexivity.
  - reflexivity.
  - reflexivity.
  - reflexivity.
  - left. lia.
Defined.

(** C9.  Fixed window: when the window stored for a key is not the one the
    current clock reading falls into - whichever of the two is earlier - the
    call stores count 1 for the current window and returns [True].  Hence,
    after such a call, going back to the window that was stored gives
    [max_requests] further calls that all return [True], whatever count had
    been reached there. *)
Theorem fixed_window_resets_on_any_window_change
    (fw : FW.t) (key : string) (now : Q) (W count last_window : Z)
    (times : list Q) :
  FW.window_start_of fw now = Returned W →
  FW.store fw !! key = Some (count, last_window) →
  last_window ≠ W →
  FW.allow fw key now =
    Returned (true, FW.set_store fw (<[key := (1, W)]> (FW.store fw)))
  ∧ (all_in_window fw last_window times = true →
     len times = FW.max_requests fw →
     (run (FixedWindowCounter fw) (calls_of key (now :: times))).1
       = replicate (S (length times)) (Returned true)).
Proof.
  intros HW Hk Hne.
  pose proof (FW_allow_rollover key fw now W count last_window HW Hk Hne)
    as Hreset.
  split; [done |]. intros Hin Hlen.
  unfold calls_of. rewrite map_cons, run_cons. fold (calls_of key times).
  simpl strategy_allow. rewrite Hreset. simpl decision. simpl after.
  f_equal.
  destruct times as [| t1 times]; [done |].
  apply all_in_window_cons in Hin as [HW1 Hin].
  set (fw1 := FW.set_store fw _).
  unfold calls_of. rewrite map_cons, run_cons. fold (calls_of key times).
  simpl strategy_allow.
  rewrite (FW_allow_rollover key fw1 t1 last_window 1 W); try done.
  2: { apply lookup_insert_eq. }
  simpl decision. simpl after. f_equal.
  set (fw2 := FW.set_store fw1 _).
  destruct (FW_run_same_window key last_window times fw2 1)
    as (fw' & Hrun & _).
  - by apply all_in_window_elem.
  - apply lookup_insert_eq.
  - unfold len in Hlen. simpl in *. lia.
  - rewrite Hrun. cbn [fst FW.max_requests fw2 fw1 FW.set_store].
    rewrite <- Hlen. unfold len. cbn [length].
    replace (Nat.min _ _) with (length times) by lia.
    by rewrite Nat.sub_diag, app_nil_r.
Qed.

Lemma fixed_window_resets_on_any_window_change_witness :
  let fw := FW.Build 10 2 {["10.0.0.1" := (2, 100)]} in
  FW.allow fw "10.0.0.1" (95 # 1) =
    Returned (true, FW.set_store fw (<["10.0.0.1" := (1, 90)]> (FW.store fw)))
  ∧ (run (FixedWindowCounter fw)
       (calls_of "10.0.0.1" [95 # 1; 101 # 1; 102 # 1]%Q)).1
      = [Returned true; Returned true; Returned true].
Proof.
  intros fw.
  destruct (fixed_window_resets_on_any_window_change
              fw "10.0.0.1" (95 # 1) 90 2 100 [101 # 1; 102 # 1]%Q)
    as [Hreset Hrun].
  - reflexivity.
  - reflexivity.
  - lia.
  - split; [exact Hreset |]. apply Hrun; reflexivity.
Defined.

(** ** Token bucket *)

Section TokenBucket.

Variable key : string.

Lemma TB_allow_stored (tb : TB.t) (now tokens last_time : Q) :
  TB.buckets tb !! key = Some (tokens, last_time) →
  let refilled := TB.refill tb tokens last_time now in
  TB.allow tb key now =
    (ge refilled 1,
     TB.set_buckets tb
       (<[key := (if ge refilled 1 then (refilled - 1)%Q else refilled, now)]>
          (TB.buckets tb))).
Proof.
  intros Hk refilled. unfold TB.allow. rewrite Hk. simpl.
  fold refilled. by destruct (ge refilled 1).
Qed.

Lemma TB_allow_absent (tb : TB.t) (now : Q) :
  TB.buckets tb !! key = None →
  let refilled := TB.refill tb (inject_Z (TB.capacity tb)) now now in
  TB.allow tb key now =
    (ge refilled 1,
     TB.set_buckets tb
       (<[key := (if ge refilled 1 then (refilled - 1)%Q else refilled, now)]>
          (TB.buckets tb))).
Proof.
  intros Hk refilled. unfold TB.allow. rewrite Hk. simpl.
  fold refilled. by destruct (ge refilled 1).
Qed.

(** With no time elapsed nothing is added to a bucket within capacity. *)
Lemma TB_refill_same_instant (tb : TB.t) (tokens now : Q) :
  (tokens <= inject_Z (TB.capacity tb))%Q →
  (TB.refill tb tokens now now == tokens)%Q.
Proof.
  intros Hle. unfold TB.refill. rewrite min_of_le; [ring | ].
  assert ((tokens + (now - now) * TB.refill_rate tb == tokens)%Q) as ->
    by ring.
  done.
Qed.

(** Below capacity the refill is the plain linear formula. *)
Lemma TB_refill_below_capacity (tb : TB.t) (tokens last_time now : Q) :
  (tokens + (now - last_time) * TB.refill_rate tb
     <= inject_Z (TB.capacity tb))%Q →
  (TB.refill tb tokens last_time now
     == tokens + (now - last_time) * TB.refill_rate tb)%Q.
Proof. intros Hle. unfold TB.refill. by apply min_of_le. Qed.

(** A burst at one clock reading is served as long as whole tokens
    remain, each call taking one token. *)
Lemma TB_run_burst (now : Q) (n : nat) :
  ∀ (tb : TB.t) (tokens : Q),
    TB.buckets tb !! key = Some (tokens, now) →
    (tokens <= inject_Z (TB.capacity tb))%Q →
    (inject_Z (Z.of_nat n) <= tokens)%Q →
    ∃ tb' tokens',
      run (TokenBucket tb) (calls_of key (replicate n now)) =
        (replicate n (Returned true), TokenBucket tb')
      ∧ TB.refill_rate tb' = TB.refill_rate tb
      ∧ TB.capacity tb' = TB.capacity tb
      ∧ TB.buckets tb' !! key = Some (tokens', now)
      ∧ (tokens' == tokens - inject_Z (Z.of_nat n))%Q.
Proof.
  induction n as [| n IH]; intros tb tokens Hk Hcap Hn.
  - exists tb, tokens. repeat split; try done. simpl. unfold inject_Z. ring.
  - rewrite Nat2Z.inj_succ in *. unfold Z.succ in *.
    rewrite inject_Z_plus in *.
    assert (0 <= inject_Z (Z.of_nat n))%Q
      by (rewrite <- (Zle_Qle 0); lia).
    pose proof (TB_refill_same_instant tb tokens now Hcap) as Hr.
    cbn [replicate]. unfold calls_of. rewrite map_cons, run_cons.
    fold (calls_of key (replicate n now)).
    simpl strategy_allow. rewrite (TB_allow_stored tb now tokens now Hk).
    cbv zeta.
    assert (ge (TB.refill tb tokens now now) 1 = true) as ->
      by (apply ge_true; rewrite Hr; unfold inject_Z in *; lra).
    simpl decision. simpl after.
    set (tb1 := TB.set_buckets tb _).
    destruct (IH tb1 (TB.refill tb tokens now now - 1)%Q)
      as (tb' & tokens' & Hrun & Hrate & Hc & Hk' & Htok).
    + apply lookup_insert_eq.
    + simpl. rewrite Hr. lra.
    + rewrite Hr. unfold inject_Z in *. lra.
    + exists tb', tokens'. rewrite Hrun. repeat split; try done.
      rewrite Htok, Hr. unfold inject_Z. ring.
Qed.

End TokenBucket.

(** C3.  A token bucket constructed with [refill_rate = 1] and
    [capacity = 5], no bucket stored yet: five calls of one key at one clock
    reading all return [True], a sixth call at that reading returns [False],
    and a further call one second later returns [True]. *)
Theorem token_bucket_burst_of_five_then_refill (key : string) (now : Q) :
  TB.init 1 5 = Returned (TB.Build 1 5 ∅)
  ∧ (run (TokenBucket (TB.Build 1 5 ∅))
       (calls_of key [now; now; now; now; now; now; (now + 1)%Q])).1
    = [Returned true; Returned true; Returned true; Returned true;
       Returned true; Returned false; Returned true].
Proof.
  split; [done |].
  change (calls_of key [now; now; now; now; now; now; (now + 1)%Q])
    with ((key, now) :: calls_of key (replicate 4 now)
            ++ [(key, now); (key, (now + 1)%Q)]).
  (* first call: the bucket is created full *)
  rewrite run_cons. simpl strategy_allow.
  rewrite (TB_allow_absent key (TB.Build 1 5 ∅) now) by done. cbv zeta.
  cbn [TB.capacity].
  pose proof (TB_refill_same_instant (TB.Build 1 5 ∅) (inject_Z 5) now) as Hr0.
  cbn [TB.capacity] in Hr0.
  remember (TB.refill (TB.Build 1 5 ∅) (inject_Z 5) now now) as r0 eqn:Er0.
  assert (Hr0' : (r0 == 5)%Q) by (unfold inject_Z in Hr0; lra).
  clear Hr0.
  assert (ge r0 1 = true) as -> by (apply ge_true; lra).
  simpl decision. simpl after. cbn [fst]. f_equal.
  (* calls two to five *)
  destruct (TB_run_burst key now 4
              (TB.set_buckets (TB.Build 1 5 ∅)
                 (<[key := ((r0 - 1)%Q, now)]> ∅)) (r0 - 1)%Q)
    as (tb5 & tokens5 & Hrun & Hrate & Hcap & Hk5 & Htok5).
  { apply lookup_insert_eq. }
  { simpl. unfold inject_Z. lra. }
  { change (inject_Z (Z.of_nat 4)) with (4 # 1)%Q. lra. }
  change (inject_Z (Z.of_nat 4)) with (4 # 1)%Q in Htok5.
  rewrite run_app. cbn [TB.buckets] in *. rewrite Hrun. cbn [fst snd].
  change (replicate 4 (Returned true) ++ ?l)
    with (Returned true :: Returned true :: Returned true
            :: Returned true :: l).
  do 4 f_equal.
  cbn [TB.set_buckets TB.refill_rate TB.capacity] in Hrate, Hcap.
  assert (Htok5' : (tokens5 == 0)%Q)
    by lra.
  (* sixth call: no whole token left *)
  rewrite run_cons. simpl strategy_allow.
  rewrite (TB_allow_stored key tb5 now tokens5 now Hk5). cbv zeta.
  pose proof (TB_refill_same_instant tb5 tokens5 now) as Hr5.
  rewrite Hcap in Hr5.
  remember (TB.refill tb5 tokens5 now now) as r5 eqn:Er5.
  assert (Hr5' : (r5 == 0)%Q) by (unfold inject_Z in Hr5; lra).
  clear Hr5.
  assert (ge r5 1 = false) as -> by (apply ge_false; lra).
  simpl decision. simpl after. cbn [fst]. f_equal.
  (* seventh call: one second refills one token *)
  rewrite run_cons. simpl strategy_allow.
  rewrite (TB_allow_stored key _ (now + 1)%Q r5 now)
    by apply lookup_insert_eq.
  cbv zeta.
  pose proof (TB_refill_below_capacity
                (TB.set_buckets tb5 (<[key := (r5, now)]> (TB.buckets tb5)))
                r5 now (now + 1)%Q) as Hr6.
  cbn [TB.set_buckets TB.refill_rate TB.capacity] in Hr6.
  rewrite Hcap, Hrate in Hr6.
  remember (TB.refill _ r5 now (now + 1)) as r6 eqn:Er6.
  assert (ge r6 1 = true) as ->; [| done].
  apply ge_true. unfold inject_Z in Hr6. lra.
Qed.

(** ** Clock moving backward *)

(** A bucket holding one token, last refilled at 10, rate 1: a call at the
    earlier reading 9.5 finds half a token and is denied, while a call with
    zero elapsed time is allowed. *)
Lemma backward_clock_is_not_clamped_counterexample :
  ¬ backward_clock_clamped
      (TB.Build 1 5 {["10.0.0.1" := (1, 10 # 1)%Q]}) "10.0.0.1" (19 # 2).
Proof.
  intros Hclamp.
  destruct (Hclamp 1%Q (10 # 1)%Q) as [Hdecision _].
  - reflexivity.
  - reflexivity.
  - vm_compute in Hdecision. discriminate.
Qed.

(** C4, as the code has it.  A clock reading earlier than the stored one is
    used as it is, no elapsed time is clamped.  Token bucket: the negative
    elapsed time enters the refill formula, so with a refill rate that is not
    negative the refilled count never exceeds the stored count, it is lower
    by [|elapsed| * refill_rate] for a bucket within capacity, and the
    earlier reading is stored as the time of the last refill.  Fixed window:
    a reading that falls into a window before the stored one makes the call
    store count 1 for that earlier window and return [True]. *)
Theorem backward_clock_is_used_unclamped :
  (∀ (tb : TB.t) (key : string) (now tokens last_time : Q),
     TB.buckets tb !! key = Some (tokens, last_time) →
     (now < last_time)%Q →
     (0 <= TB.refill_rate tb)%Q →
     let refilled := TB.refill tb tokens last_time now in
     (refilled <= tokens)%Q
     ∧ ((tokens <= inject_Z (TB.capacity tb))%Q →
        (refilled == tokens - (last_time - now) * TB.refill_rate tb)%Q)
     ∧ (TB.allow tb key now).1 = ge refilled 1
     ∧ TB.buckets (TB.allow tb key now).2 !! key
       = Some (if ge refilled 1 then (refilled - 1)%Q else refilled, now))
  ∧ (∀ (fw : FW.t) (key : string) (now : Q) (W count last_window : Z),
       FW.window_start_of fw now = Returned W →
       FW.store fw !! key = Some (count, last_window) →
       W < last_window →
       FW.allow fw key now =
         Returned (true, FW.set_store fw (<[key := (1, W)]> (FW.store fw)))).
Proof.
  split.
  - intros tb key now tokens last_time Hk Hback Hrate refilled.
    assert (Hdrop : (0 <= (last_time - now) * TB.refill_rate tb)%Q)
      by (apply Qmult_le_0_compat; lra).
    assert (Hlin : (tokens + (now - last_time) * TB.refill_rate tb
                    == tokens - (last_time - now) * TB.refill_rate tb)%Q)
      by ring.
    pose proof (min_le_r (inject_Z (TB.capacity tb))
                  (tokens + (now - last_time) * TB.refill_rate tb)) as Hmin.
    fold (TB.refill tb tokens last_time now) in Hmin. fold refilled in Hmin.
    repeat split.
    + lra.
    + intros Hcap. subst refilled.
      rewrite TB_refill_below_capacity; [done | lra].
    + by rewrite (TB_allow_stored key tb now tokens last_time Hk).
    + rewrite (TB_allow_stored key tb now tokens last_time Hk).
      apply lookup_insert_eq.
  - intros fw key now W count last_window HW Hk Hlt.
    apply (FW_allow_rollover key fw now W count last_window); [done .. | lia].
Qed.

Lemma backward_clock_is_used_unclamped_witness :
  let tb := TB.Build 1 5 {["10.0.0.1" := (1, 10 # 1)%Q]} in
  let fw := FW.Build 10 2 {["10.0.0.1" := (2, 100)]} in
  (TB.refill tb 1 (10 # 1) (19 # 2) <= 1)%Q
  ∧ FW.allow fw "10.0.0.1" (95 # 1)
    = Returned (true,
                FW.set_store fw (<["10.0.0.1" := (1, 90)]> (FW.store fw))).
Proof.
  intros tb fw.
  destruct backward_clock_is_used_unclamped as [Htb Hfw].
  split.
  - refine (proj1 (Htb tb "10.0.0.1" (19 # 2)%Q 1%Q (10 # 1)%Q _ _ _)).
    + reflexivity.
    + reflexivity.
    + discriminate.
  - refine (Hfw fw "10.0.0.1" (95 # 1)%Q 90 2 100 _ _ _).
    + reflexivity.
    + reflexivity.
    + lia.
Defined.

(** ** Construction *)

(** Window size 0, a negative maximum, a negative refill rate and capacity
    0 are all accepted by the constructors. *)
Lemma construction_accepts_invalid_configuration_counterexample :
  ¬ rejected (FW.init 0 5)
  ∧ ¬ rejected (SW.init 10 (-1))
  ∧ ¬ rejected (TB.init (-1 # 2) 5)
  ∧ ¬ rejected (TB.init 1 0).
Proof. repeat split; intros [e He]; discriminate He. Qed.

(** C5, as the code has it.  The constructors check nothing: for every window
    size, maximum, refill rate and capacity - valid ones, a refill rate of 0
    among them, and invalid ones alike - construction returns a strategy
    that holds exactly these parameters and no per-key state.  A fixed
    window constructed with window size 0 raises [ZeroDivisionError] in
    every later [allow] call. *)
Theorem construction_accepts_every_configuration :
  (∀ window_size max_requests : Z,
     FW.init window_size max_requests
       = Returned (FW.Build window_size max_requests ∅)
     ∧ SW.init window_size max_requests
       = Returned (SW.Build window_size max_requests ∅))
  ∧ (∀ (refill_rate : Q) (capacity : Z),
       TB.init refill_rate capacity
         = Returned (TB.Build refill_rate capacity ∅))
  ∧ (∀ (max_requests : Z) (store : gmap string (Z * Z)) (key : string)
       (now : Q),
       FW.allow (FW.Build 0 max_requests store) key now
         = Raised ZeroDivisionError).
Proof. repeat split. Qed.

(** ** Sliding window log *)

Lemma purge_idempotent (window_start : Q) (log : list Q) :
  SW.purge window_start (SW.purge window_start log) = SW.purge window_start log.
Proof.
  induction log as [| t0 log IH]; [done |].
  simpl. destruct (lt t0 window_start) eqn:E; [done |].
  simpl. by rewrite E.
Qed.

Lemma purge_length (window_start : Q) (log : list Q) :
  (length (SW.purge window_start log) <= length log)%nat.
Proof.
  induction log as [| t0 log IH]; [done |].
  simpl. destruct (lt t0 window_start); simpl; lia.
Qed.

(** ** Each call reads and writes the entry of its own key only *)

(** The decision and the new entry of [key] are determined by the
    configuration, the entry of [key] and the clock reading. *)
Lemma allow_local (s1 s2 : RateLimitStrategy) (key : string) (now : Q) :
  config_of s1 = config_of s2 →
  key_state_of s1 key = key_state_of s2 key →
  decision (strategy_allow s1 key now) = decision (strategy_allow s2 key now)
  ∧ config_of (after s1 (strategy_allow s1 key now))
    = config_of (after s2 (strategy_allow s2 key now))
  ∧ key_state_of (after s1 (strategy_allow s1 key now)) key
    = key_state_of (after s2 (strategy_allow s2 key now)) key.
Proof.
  destruct s1 as [[w1 m1 st1] | [w1 m1 st1] | [r1 c1 st1]],
           s2 as [[w2 m2 st2] | [w2 m2 st2] | [r2 c2 st2]];
    simpl; intros Hc Hk; try discriminate;
    injection Hc as -> ->; injection Hk as Hk.
  - unfold FW.allow, FW.window_start_of. simpl.
    destruct (mod_ _ w2) as [r |]; [| simpl; by rewrite Hk].
    rewrite Hk. destruct (default _ (st2 !! key)) as [count last_window].
    destruct (negb (last_window =? int_ now - r));
      [| destruct (count <? m2)];
      simpl; rewrite ?lookup_insert_eq, ?Hk; done.
  - unfold SW.allow, SW.window_start_of. simpl. rewrite Hk.
    destruct (len _ <? m2); simpl; rewrite !lookup_insert_eq; done.
  - unfold TB.allow. simpl. rewrite Hk.
    destruct (default _ (st2 !! key)) as [tokens last_time].
    unfold TB.refill. simpl.
    destruct (ge _ 1); simpl; rewrite !lookup_insert_eq; done.
Qed.

(** A call for [key] leaves the configuration and the entry of every other
    key as they were. *)
Lemma allow_frame (s : RateLimitStrategy) (key key' : string) (now : Q) :
  key ≠ key' →
  config_of (after s (strategy_allow s key now)) = config_of s
  ∧ key_state_of (after s (strategy_allow s key now)) key'
    = key_state_of s key'.
Proof.
  intros Hne. destruct s as [[w m st] | [w m st] | [r c st]]; simpl.
  - unfold FW.allow, FW.window_start_of. simpl.
    destruct (mod_ _ w) as [r |]; [| done].
    destruct (default _ (st !! key)) as [count last_window].
    destruct (negb (last_window =? int_ now - r));
      [| destruct (count <? m)];
      simpl; rewrite ?lookup_insert_ne; done.
  - unfold SW.allow. simpl.
    destruct (len _ <? m); simpl; rewrite lookup_insert_ne; done.
  - unfold TB.allow. simpl.
    destruct (default _ (st !! key)) as [tokens last_time].
    destruct (ge _ 1); simpl; rewrite lookup_insert_ne; done.
Qed.

(** Histories: the calls of other keys can be dropped without changing what
    the calls of [key] return and what is stored for [key]. *)
Lemma run_only_key (key : string) (h : list (string * Q)) :
  ∀ s1 s2 : RateLimitStrategy,
    config_of s1 = config_of s2 →
    key_state_of s1 key = key_state_of s2 key →
    decisions_for key h (run s1 h).1 = (run s2 (only_key key h)).1
    ∧ key_state_of (run s1 h).2 key
      = key_state_of (run s2 (only_key key h)).2 key.
Proof.
  induction h as [| [k now] h IH]; intros s1 s2 Hc Hk; [done |].
  rewrite run_cons. cbn [decisions_for only_key List.filter fst snd].
  fold (only_key key h).
  destruct (String.eqb_spec k key) as [-> | Hne].
  - rewrite run_cons. cbn [fst snd].
    destruct (allow_local s1 s2 key now Hc Hk) as (Hd & Hc' & Hk').
    destruct (IH _ _ Hc' Hk') as [IHd IHk].
    by rewrite Hd, IHd, IHk.
  - destruct (allow_frame s1 k key now Hne) as [Hc' Hk'].
    apply IH; congruence.
Qed.

(** C7.  Cross-key independence, for every strategy: in any history, what
    the calls of key [A] return, and the entry stored for [A] at the end,
    are the same as in the history with the calls of all other keys left
    out. *)
Theorem cross_key_independence
    (s : RateLimitStrategy) (A : string) (h : list (string * Q)) :
  decisions_for A h (run s h).1 = (run s (only_key A h)).1
  ∧ key_state_of (run s h).2 A = key_state_of (run s (only_key A h)).2 A.
Proof. by apply run_only_key. Qed.

(** C10.  Determinism, for every strategy: the decision of [allow] and the
    entry it leaves for the key are a function of the configuration, the
    entry stored for the key and the clock reading; and two calls on equal
    strategies with equal key and clock reading return the same decision
    and leave equal strategies. *)
Theorem allow_is_deterministic
    (s1 s2 : RateLimitStrategy) (key1 key2 : string) (now1 now2 : Q) :
  key1 = key2 →
  now1 = now2 →
  (config_of s1 = config_of s2 →
   key_state_of s1 key1 = key_state_of s2 key2 →
   decision (strategy_allow s1 key1 now1)
     = decision (strategy_allow s2 key2 now2)
   ∧ key_state_of (after s1 (strategy_allow s1 key1 now1)) key1
     = key_state_of (after s2 (strategy_allow s2 key2 now2)) key2)
  ∧ (s1 = s2 → strategy_allow s1 key1 now1 = strategy_allow s2 key2 now2).
Proof.
  intros <- <-. split.
  - intros Hc Hk. destruct (allow_local s1 s2 key1 now1 Hc Hk) as (? & _ & ?).
    done.
  - by intros <-.
Qed.

Lemma allow_is_deterministic_witness :
  let s1 := TokenBucket (TB.Build 1 5 {["a" := (1 # 2, 10 # 1)%Q]}) in
  let s2 := TokenBucket (TB.Build 1 5 {["a" := (1 # 2, 10 # 1)%Q;
                                         "b" := (3 # 1, 7 # 1)%Q]}) in
  decision (strategy_allow s1 "a" (21 # 2))
    = decision (strategy_allow s2 "a" (21 # 2))
  ∧ key_state_of (after s1 (strategy_allow s1 "a" (21 # 2))) "a"
    = key_state_of (after s2 (strategy_allow s2 "a" (21 # 2))) "a".
Proof.
  intros s1 s2.
  refine (proj1 (allow_is_deterministic s1 s2 "a" "a" (21 # 2) (21 # 2) _ _)
            _ _).
  - reflexivity.
  - reflexivity.
  - reflexivity.
  - reflexivity.
Defined.

(** C6.  Idempotent denial, for every strategy: when [allow] returns
    [False], the next call for the same key at the same clock reading
    returns [False] as well; and a fixed window counter that denies is left
    exactly as it was. *)
Theorem denial_is_idempotent
    (s s' : RateLimitStrategy) (key : string) (now : Q) :
  strategy_allow s key now = Returned (false, s') →
  decision (strategy_allow s' key now) = Returned false
  ∧ (∀ fw, s = FixedWindowCounter fw → s' = s).
Proof.
  destruct s as [fw | sw | tb]; simpl.
  - destruct (FW.allow fw key now) as [[b fw'] |] eqn:E; [| discriminate].
    intros [= -> <-].
    assert (fw' = fw) as ->.
    { unfold FW.allow in E.
      destruct (FW.window_start_of fw now) as [W |]; [| discriminate].
      destruct (default _ (FW.store fw !! key)) as [count last_window].
      destruct (negb _); [discriminate |].
      destruct (count <? _); [discriminate |]. by injection E. }
    simpl. rewrite E. done.
  - destruct (SW.allow sw key now) as [b sw'] eqn:E.
    intros [= -> <-]. split; [| discriminate].
    unfold SW.allow in E.
    set (log := SW.purge _ (default [] (SW.logs sw !! key))) in E.
    destruct (len log <? SW.max_requests sw) eqn:Elen; [discriminate |].
    injection E as <-. simpl. unfold SW.allow, SW.window_start_of. simpl.
    rewrite lookup_insert_eq. simpl.
    fold (SW.window_start_of sw now). unfold log at 1.
    rewrite purge_idempotent. fold log. by rewrite Elen.
  - destruct (TB.allow tb key now) as [b tb'] eqn:E.
    intros [= -> <-]. split; [| discriminate].
    unfold TB.allow in E.
    destruct (default _ (TB.buckets tb !! key)) as [tokens last_time].
    set (refilled := TB.refill tb tokens last_time now) in E.
    destruct (ge refilled 1) eqn:Ege; [discriminate |].
    injection E as <-. simpl.
    rewrite (TB_allow_stored key _ now refilled now)
      by apply lookup_insert_eq.
    cbv zeta.
    assert (ge (TB.refill (TB.set_buckets tb
                             (<[key := (refilled, now)]> (TB.buckets tb)))
                  refilled now now) 1 = false) as ->; [| done].
    apply ge_false. apply ge_false in Ege.
    unfold TB.refill at 1. cbn [TB.set_buckets TB.capacity TB.refill_rate].
    pose proof (min_le_r (inject_Z (TB.capacity tb))
                  (refilled + (now - now) * TB.refill_rate tb)) as Hmin.
    assert (Hz : (refilled + (now - now) * TB.refill_rate tb == refilled)%Q)
      by ring.
    lra.
Qed.

Lemma denial_is_idempotent_witness :
  let s := TokenBucket (TB.Build 1 5 {["a" := (1 # 4, 10 # 1)%Q]}) in
  let s' := after s (strategy_allow s "a" (21 # 2)) in
  decision (strategy_allow s' "a" (21 # 2)) = Returned false.
Proof.
  intros s s'.
  refine (proj1 (denial_is_idempotent s s' "a" (21 # 2) _)).
  vm_compute. reflexivity.
Defined.

(** ** The sliding window bound *)

Section ListFilter.

Context {A : Type}.
Implicit Types (f g : A → bool) (l : list A).

Lemma filter_all_true f l :
  Forall (λ x, f x = true) l → List.filter f l = l.
Proof.
  induction 1 as [| x l Hx _ IH]; [done |].
  simpl. by rewrite Hx, IH.
Qed.

Lemma filter_filter_implied f g l :
  (∀ x, f x = true → g x = true) →
  List.filter f (List.filter g l) = List.filter f l.
Proof.
  intros Himp. induction l as [| x l IH]; [done |].
  simpl. destruct (g x) eqn:Eg; simpl.
  - by rewrite IH.
  - destruct (f x) eqn:Ef; [| done].
    apply Himp in Ef. congruence.
Qed.

Lemma filter_length_implied f g l :
  (∀ x, f x = true → g x = true) →
  (length (List.filter f l) <= length (List.filter g l))%nat.
Proof.
  intros Himp. induction l as [| x l IH]; [done |].
  simpl. destruct (f x) eqn:Ef.
  - rewrite (Himp x Ef). simpl. lia.
  - destruct (g x); simpl; lia.
Qed.

Lemma Forall_list_filter (P : A → Prop) f l :
  Forall P l → Forall P (List.filter f l).
Proof.
  induction 1 as [| x l Hx _ IH]; [constructor |].
  simpl. destruct (f x); [by constructor | done].
Qed.

Lemma StronglySorted_snoc (R : A → A → Prop) l (a : A) :
  StronglySorted R l → Forall (λ x, R x a) l → StronglySorted R (l ++ [a]).
Proof.
  induction 1 as [| x l Hs IH Hx]; intros Hall.
  - repeat constructor.
  - inversion Hall as [| ? ? Hxa Hla]; subst.
    simpl. constructor; [by apply IH |].
    apply Forall_app. split; [done |]. by repeat constructor.
Qed.

End ListFilter.

(** On a log in time order the prefix trim removes exactly the readings
    older than the window start. *)
Lemma purge_filter (window_start : Q) (log : list Q) :
  StronglySorted Qle log →
  SW.purge window_start log = List.filter (Qle_bool window_start) log.
Proof.
  induction 1 as [| t0 log Hs IH Hall]; [done |].
  simpl. destruct (lt t0 window_start) eqn:E.
  - apply lt_true in E.
    assert (Qle_bool window_start t0 = false) as ->; [| done].
    apply not_true_iff_false. rewrite Qle_bool_iff. lra.
  - apply lt_false in E.
    assert (Qle_bool window_start t0 = true) as ->
      by by apply Qle_bool_iff.
    f_equal. symmetry. apply filter_all_true.
    eapply Forall_impl; [exact Hall |].
    intros t1 Ht1. simpl in Ht1. apply Qle_bool_iff. lra.
Qed.

Lemma purge_sorted (window_start : Q) (log : list Q) :
  StronglySorted Qle log → StronglySorted Qle (SW.purge window_start log).
Proof.
  induction 1 as [| t0 log Hs IH Hall]; [constructor |].
  simpl. destruct (lt t0 window_start); [done | by constructor].
Qed.

Section SlidingWindow.

Variable key : string.

Lemma in_trailing_window_true (sw : SW.t) (window_end t0 : Q) :
  in_trailing_window sw window_end t0 = true ↔
  (window_end - inject_Z (SW.window_size sw) <= t0)%Q ∧ (t0 <= window_end)%Q.
Proof.
  unfold in_trailing_window, SW.window_start_of.
  by rewrite andb_true_iff, !Qle_bool_iff.
Qed.

Lemma SW_window_start_set_logs (sw : SW.t) m (now : Q) :
  SW.window_start_of (SW.set_logs sw m) now = SW.window_start_of sw now.
Proof. done. Qed.

Lemma SW_logs_set_logs (sw : SW.t) m : SW.logs (SW.set_logs sw m) = m.
Proof. done. Qed.

Lemma SW_max_requests_set_logs (sw : SW.t) m :
  SW.max_requests (SW.set_logs sw m) = SW.max_requests sw.
Proof. done. Qed.

Lemma in_trailing_window_set_logs (sw : SW.t) m (window_end : Q) :
  in_trailing_window (SW.set_logs sw m) window_end
  = in_trailing_window sw window_end.
Proof. done. Qed.

Lemma log_invariant_fresh (sw : SW.t) (last : Q) :
  0 <= SW.max_requests sw →
  SW.logs sw !! key = None →
  log_invariant sw key [] last.
Proof.
  intros HN Hk. unfold log_invariant. rewrite Hk. simpl.
  repeat split; [constructor | constructor | done].
Qed.

(** One call keeps the invariant, the reading of an allowed call joining
    the allowed readings. *)
Lemma SW_allow_invariant (sw : SW.t) (allowed : list Q) (last now : Q) :
  0 <= SW.window_size sw →
  (last <= now)%Q →
  log_invariant sw key allowed last →
  log_invariant (SW.allow sw key now).2 key
    (if (SW.allow sw key now).1 then allowed ++ [now] else allowed) now.
Proof.
  intros Hw Hnow (Hlog & Hsorted & Hle & Hbound).
  assert (Hw' : (0 <= inject_Z (SW.window_size sw))%Q)
    by (by rewrite <- (Zle_Qle 0)).
  assert (Hle' : Forall (λ t0, (t0 <= now)%Q) allowed).
  { eapply Forall_impl; [exact Hle |]. intros t0 Ht0. simpl in Ht0. lra. }
  unfold SW.allow.
  set (log := SW.purge (SW.window_start_of sw now)
                (default [] (SW.logs sw !! key))).
  assert (Hpurged :
    log = List.filter (Qle_bool (SW.window_start_of sw now)) allowed).
  { unfold log. rewrite purge_filter by done. rewrite Hlog.
    apply filter_filter_implied. intros t0.
    rewrite !Qle_bool_iff. unfold SW.window_start_of. lra. }
  assert (Hlog_sorted : StronglySorted Qle log)
    by (by apply purge_sorted).
  destruct (len log <? SW.max_requests sw) eqn:Elen; cbn [fst snd].
  - apply Z.ltb_lt in Elen.
    unfold log_invariant.
    rewrite SW_window_start_set_logs, SW_logs_set_logs,
      SW_max_requests_set_logs, lookup_insert_eq.
    cbn [default]. unfold id.
    split; [| split; [| split]].
    + rewrite List.filter_app, <- Hpurged. simpl.
      assert (Qle_bool (SW.window_start_of sw now) now = true) as ->; [| done].
      apply Qle_bool_iff. unfold SW.window_start_of. lra.
    + apply StronglySorted_snoc; [done |].
      rewrite Hpurged. by apply Forall_list_filter.
    + apply Forall_app. split; [done |]. repeat constructor. lra.
    + intros window_end.
      rewrite in_trailing_window_set_logs, List.filter_app. unfold len. rewrite length_app.
      simpl. destruct (in_trailing_window sw window_end now) eqn:Ein.
      * apply in_trailing_window_true in Ein as [Hlo Hhi].
        pose proof (filter_length_implied
                      (in_trailing_window sw window_end)
                      (Qle_bool (SW.window_start_of sw now)) allowed)
          as Hcount.
        rewrite <- Hpurged in Hcount. unfold len in Elen. simpl.
        assert (length (List.filter (in_trailing_window sw window_end) allowed)
                <= length log)%nat; [| lia].
        apply Hcount. intros t0 Ht0.
        apply in_trailing_window_true in Ht0 as [Hlo0 _].
        apply Qle_bool_iff. unfold SW.window_start_of. lra.
      * specialize (Hbound window_end). unfold len in Hbound.
        simpl. lia.
  - unfold log_invariant.
    rewrite SW_window_start_set_logs, SW_logs_set_logs,
      SW_max_requests_set_logs, lookup_insert_eq.
    cbn [default]. unfold id.
    repeat split; done.
Qed.

(** A whole history of one key at clock readings that never go backward. *)
Lemma SW_run_bound (times : list Q) :
  ∀ (sw : SW.t) (allowed : list Q) (last window_end : Q),
    0 <= SW.window_size sw →
    nondecreasing (last :: times) = true →
    log_invariant sw key allowed last →
    len (List.filter (in_trailing_window sw window_end)
           (allowed ++ allowed_times times
                         (run (SlidingWindowLog sw) (calls_of key times)).1))
      <= SW.max_requests sw.
Proof.
  induction times as [| now times IH];
    intros sw allowed last window_end Hw Hnd Hinv.
  - simpl. rewrite app_nil_r. apply Hinv.
  - cbn [nondecreasing] in Hnd. apply andb_true_iff in Hnd as [Hnow Hnd].
    apply Qle_bool_iff in Hnow.
    pose proof (SW_allow_invariant sw allowed last now Hw Hnow Hinv) as Hstep.
    unfold calls_of. rewrite map_cons, run_cons. fold (calls_of key times).
    cbn [strategy_allow].
    destruct (SW.allow sw key now) as [b sw'] eqn:E.
    cbn [decision after fst snd allowed_times] in *.
    assert (Hcfg : SW.window_size sw' = SW.window_size sw
                   ∧ SW.max_requests sw' = SW.max_requests sw).
    { unfold SW.allow in E. destruct (len _ <? _); by injection E as _ <-. }
    destruct Hcfg as [Hws Hmax].
    assert (Hwin : in_trailing_window sw window_end
                   = in_trailing_window sw' window_end).
    { unfold in_trailing_window, SW.window_start_of. by rewrite Hws. }
    rewrite Hwin, <- Hmax.
    destruct b.
    + rewrite (app_assoc allowed [now] _ : allowed ++ now :: _ = _).
      apply (IH sw' _ now); [by rewrite Hws | done | done].
    + apply (IH sw' _ now); [by rewrite Hws | done | done].
Qed.

End SlidingWindow.

Lemma nondecreasing_app_l (l1 l2 : list Q) :
  nondecreasing (l1 ++ l2) = true → nondecreasing l1 = true.
Proof.
  induction l1 as [| t0 l1 IH]; [done |].
  destruct l1 as [| t1 l1]; [done |].
  simpl. rewrite !andb_true_iff. intros [H0 H1]. split; [done |].
  by apply IH.
Qed.

Lemma nondecreasing_head_twice (t0 : Q) (l : list Q) :
  nondecreasing (t0 :: l) = true → nondecreasing (t0 :: t0 :: l) = true.
Proof.
  intros H. change (Qle_bool t0 t0 && nondecreasing (t0 :: l) = true).
  rewrite H, andb_true_r. apply Qle_bool_iff. lra.
Qed.

(** With a negative window size the trailing window is empty. *)
Lemma in_trailing_window_negative (sw : SW.t) (window_end : Q) (l : list Q) :
  SW.window_size sw < 0 →
  List.filter (in_trailing_window sw window_end) l = [].
Proof.
  intros Hw. induction l as [| t0 l IH]; [done |].
  simpl. rewrite IH.
  destruct (in_trailing_window sw window_end t0) eqn:E; [| done].
  apply in_trailing_window_true in E as [Hlo Hhi].
  assert (inject_Z (SW.window_size sw) < 0)%Q
    by (by rewrite <- (Zlt_Qlt _ 0)).
  lra.
Qed.

(** C1.  Sliding window log with [max_requests = N] (not negative), no log
    stored for the key yet: for every sequence of calls of one key at clock
    readings that never go backward, every trailing window of length
    [window_size] - wherever it ends, in particular at the reading of any
    call of the sequence - holds at most [N] readings of calls that returned
    [True]; and so does the window ending at a call when only the calls up
    to that one are counted. *)
Theorem sliding_window_never_exceeds_max_requests
    (sw : SW.t) (key : string) (times : list Q) :
  0 <= SW.max_requests sw →
  SW.logs sw !! key = None →
  nondecreasing times = true →
  (∀ window_end : Q,
     len (List.filter (in_trailing_window sw window_end)
            (allowed_times times
               (run (SlidingWindowLog sw) (calls_of key times)).1))
       <= SW.max_requests sw)
  ∧ (∀ (before : list Q) (now : Q) (later : list Q),
       times = before ++ now :: later →
       len (List.filter (in_trailing_window sw now)
              (allowed_times (before ++ [now])
                 (run (SlidingWindowLog sw)
                    (calls_of key (before ++ [now]))).1))
         <= SW.max_requests sw).
Proof.
  intros HN Hk Hnd.
  assert (Hall : ∀ (l : list Q) (window_end : Q),
            nondecreasing l = true →
            len (List.filter (in_trailing_window sw window_end)
                   (allowed_times l
                      (run (SlidingWindowLog sw) (calls_of key l)).1))
              <= SW.max_requests sw).
  { intros l window_end Hl.
    destruct (Z.lt_ge_cases (SW.window_size sw) 0) as [Hneg | Hw].
    - by rewrite in_trailing_window_negative.
    - destruct l as [| t0 l]; [done |].
      apply (SW_run_bound key (t0 :: l) sw [] t0 window_end Hw).
      + by apply nondecreasing_head_twice.
      + by apply log_invariant_fresh. }
  split.
  - intros window_end. by apply Hall.
  - intros before now later ->. apply Hall.
    apply (nondecreasing_app_l _ later).
    by rewrite <- app_assoc.
Qed.

Lemma sliding_window_never_exceeds_max_requests_witness :
  let sw := SW.Build 10 2 ∅ in
  let times := [100 # 1; 101 # 1; 1019 # 10; 110 # 1; 1105 # 10; 111 # 1]%Q in
  len (List.filter (in_trailing_window sw (111 # 1))
         (allowed_times times
            (run (SlidingWindowLog sw) (calls_of "10.0.0.1" times)).1))
    <= 2.
Proof.
  intros sw times.
  refine (proj1 (sliding_window_never_exceeds_max_requests
                   sw "10.0.0.1" times _ _ _) (111 # 1)%Q).
  - simpl. lia.
  - reflexivity.
  - reflexivity.
Defined.

(** ** Callers running at the same time *)

Section Concurrent.

Import Threads.

Variable key : string.

(** A thread that takes both its steps without another thread in between
    has executed [allow]. *)
Lemma thread_steps_are_allow (fw : FW.t) (now : Q) :
  thread_step key (thread_step key fw (Start now)).1
    (thread_step key fw (Start now)).2
  = (after fw (FW.allow fw key now), Finished (decision (FW.allow fw key now))).
Proof.
  unfold FW.allow. simpl.
  destruct (FW.window_start_of fw now) as [window_start |]; [| done].
  destruct (default _ (FW.store fw !! key)) as [count last_window].
  simpl. destruct (negb _); [done |]. by destruct (count <? _).
Qed.

Lemma schedule_step_middle (fw : FW.t) (done_ rest : list thread) (th : thread) :
  schedule_step key (fw, done_ ++ th :: rest) (length done_)
  = ((thread_step key fw th).1, done_ ++ (thread_step key fw th).2 :: rest).
Proof.
  unfold schedule_step. cbn [fst snd].
  rewrite list_lookup_middle by done.
  destruct (thread_step key fw th) as [fw' th']. cbn [fst snd].
  f_equal. replace (length done_) with (length done_ + 0)%nat by lia.
  by rewrite insert_app_r.
Qed.

Lemma strategy_allow_fixed_window (fw : FW.t) (now : Q) :
  decision (strategy_allow (FixedWindowCounter fw) key now)
    = decision (FW.allow fw key now)
  ∧ after (FixedWindowCounter fw)
      (strategy_allow (FixedWindowCounter fw) key now)
    = FixedWindowCounter (after fw (FW.allow fw key now)).
Proof. simpl. by destruct (FW.allow fw key now) as [[b fw'] |]. Qed.

(** The serial schedule is the history run of section 5. *)
Lemma run_serial_schedule (times : list Q) :
  ∀ (fw : FW.t) (done_ : list thread),
    ∃ fw',
      (run (FixedWindowCounter fw) (calls_of key times)).2
        = FixedWindowCounter fw'
      ∧ run_schedule key (fw, done_ ++ map Start times)
          (serial_schedule (length done_) (length times))
        = (fw', done_ ++ map Finished
                   (run (FixedWindowCounter fw) (calls_of key times)).1).
Proof.
  induction times as [| now times IH]; intros fw done_.
  - exists fw. done.
  - unfold calls_of. rewrite map_cons, run_cons. fold (calls_of key times).
    destruct (strategy_allow_fixed_window fw now) as [-> ->].
    cbn [length serial_schedule map fst snd].
    unfold run_schedule. cbn [fold_left].
    rewrite schedule_step_middle, schedule_step_middle, thread_steps_are_allow.
    cbn [fst snd].
    destruct (IH (after fw (FW.allow fw key now))
                (done_ ++ [Finished (decision (FW.allow fw key now))]))
      as (fw' & Hrun & Hsched).
    rewrite length_app, Nat.add_1_r in Hsched.
    rewrite <- !app_assoc in Hsched. cbn [app] in Hsched.
    unfold run_schedule in Hsched.
    exists fw'. split; [done |]. by rewrite Hsched.
Qed.

(** One call after another in one window, for a key seen for the first
    time: the first [max_requests] calls are allowed, the others denied. *)
Lemma FW_run_first_window (W : Z) (times : list Q) :
  ∀ fw : FW.t,
    0 <= FW.max_requests fw →
    FW.store fw !! key = None →
    all_in_window fw W times = true →
    let granted := Nat.min (length times) (Z.to_nat (FW.max_requests fw)) in
    (run (FixedWindowCounter fw) (calls_of key times)).1
      = replicate granted (Returned true)
          ++ replicate (length times - granted) (Returned false).
Proof.
  induction times as [| now times IH]; intros fw Hmax Hk Hin granted; [done |].
  apply all_in_window_cons in Hin as [HW Hin].
  unfold calls_of. rewrite map_cons, run_cons. fold (calls_of key times).
  cbn [strategy_allow]. rewrite (FW_allow_absent key fw now W HW Hk).
  destruct (Z.ltb_spec 0 (FW.max_requests fw)) as [Hlt | Hge].
  - cbn [decision after fst].
    destruct (FW_run_same_window key W times
                (FW.set_store fw (<[key := (1, W)]> (FW.store fw))) 1)
      as (fw' & Hrun & _).
    + by apply all_in_window_elem.
    + apply lookup_insert_eq.
    + simpl. lia.
    + rewrite Hrun. cbn [fst FW.max_requests FW.set_store].
      assert (granted =
                S (Nat.min (length times)
                     (Z.to_nat (FW.max_requests fw - 1))))
        as -> by (subst granted; cbn [length]; lia).
      done.
  - cbn [decision after fst].
    rewrite (IH fw Hmax Hk Hin).
    assert (granted = 0%nat) as -> by (subst granted; lia).
    replace (Z.to_nat (FW.max_requests fw)) with 0%nat by lia.
    rewrite Nat.min_0_r. simpl. by rewrite Nat.sub_0_r.
Qed.

Lemma count_allowed_replicate (a b : nat) :
  count_allowed (replicate a (Returned true) ++ replicate b (Returned false))
  = Z.of_nat a.
Proof.
  unfold count_allowed, len. f_equal.
  induction a as [| a IH]; simpl; [| by rewrite IH].
  induction b as [| b IH]; simpl; done.
Qed.

Lemma results_finished (outs : list (outcome bool)) :
  results (map Finished outs) = outs
  ∧ all_finished (map Finished outs) = true.
Proof.
  induction outs as [| o outs [IH1 IH2]]; [done |].
  split; [| done].
  change (results (map Finished (o :: outs)))
    with (o :: results (map Finished outs)).
  by rewrite IH1.
Qed.

End Concurrent.

(** Two threads, [max_requests = 1]: both read count 0 before either has
    written, and both calls return [True]. *)
Lemma concurrent_calls_allow_more_than_max_requests_counterexample :
  ¬ Threads.exactly_max_requests_allowed
      (FW.Build 10 1 ∅) "10.0.0.1" [100 # 1; 100 # 1]%Q.
Proof.
  intros Hexact.
  specialize (Hexact [0; 1; 0; 1]%nat eq_refl).
  vm_compute in Hexact. discriminate.
Qed.

(** C8, as the code has it.  [allow] takes no lock, so nothing keeps two
    calls for one key from overlapping.  When the calls do not overlap -
    each thread runs its read and its write before the next thread starts -
    then [N] calls of a key seen for the first time, all in one aligned
    window, with [max_requests = M] (not negative), end with the first
    [min(N, M)] calls allowed and the others denied. *)
Theorem serialized_calls_allow_exactly_max_requests
    (fw : FW.t) (key : string) (W : Z) (times : list Q) :
  0 <= FW.max_requests fw →
  FW.store fw !! key = None →
  all_in_window fw W times = true →
  let final :=
    Threads.run_schedule key (fw, map Threads.Start times)
      (Threads.serial_schedule 0 (length times)) in
  let granted := Nat.min (length times) (Z.to_nat (FW.max_requests fw)) in
  Threads.all_finished final.2 = true
  ∧ Threads.results final.2
    = replicate granted (Returned true)
        ++ replicate (length times - granted) (Returned false)
  ∧ count_allowed (Threads.results final.2)
    = Z.min (len times) (FW.max_requests fw).
Proof.
  intros Hmax Hk Hin final granted.
  destruct (run_serial_schedule key times fw []) as (fw' & _ & Hsched).
  cbn [length app] in Hsched. subst final. rewrite Hsched. cbn [snd].
  destruct (results_finished
              (run (FixedWindowCounter fw) (calls_of key times)).1)
    as [-> ->].
  rewrite (FW_run_first_window key W times fw Hmax Hk Hin). fold granted.
  repeat split.
  rewrite count_allowed_replicate. subst granted. unfold len. lia.
Qed.

Lemma serialized_calls_allow_exactly_max_requests_witness :
  let final :=
    Threads.run_schedule "10.0.0.1"
      (FW.Build 10 1 ∅, map Threads.Start [100 # 1; 100 # 1]%Q)
      (Threads.serial_schedule 0 2) in
  Threads.all_finished final.2 = true
  ∧ Threads.results final.2 = [Returned true; Returned false]
  ∧ count_allowed (Threads.results final.2) = 1.
Proof.
  refine (serialized_calls_allow_exactly_max_requests
            (FW.Build 10 1 ∅) "10.0.0.1" 100 [100 # 1; 100 # 1]%Q _ _ _).
  - simpl. lia.
  - reflexivity.
  - reflexivity.
Defined.

(** * Further properties of the strategies *)

(** ** What every call keeps *)

(** A property kept by every single call is kept by every history. *)
Lemma run_invariant (P : RateLimitStrategy → Prop) :
  (∀ s key now, P s → P (after s (strategy_allow s key now))) →
  ∀ (h : list (string * Q)) (s : RateLimitStrategy), P s → P (run s h).2.
Proof.
  intros Hstep. induction h as [| [key now] h IH]; intros s Hs; [done |].
  rewrite run_cons. cbn [snd]. by apply IH, Hstep.
Qed.

Lemma allow_keeps_config (s : RateLimitStrategy) (key : string) (now : Q) :
  config_of (after s (strategy_allow s key now)) = config_of s.
Proof.
  destruct s as [fw | sw | tb]; simpl.
  - unfold FW.allow.
    destruct (FW.window_start_of fw now) as [W |]; [| done].
    destruct (default _ (FW.store fw !! key)) as [count last_window].
    destruct (negb _); [done |]. by destruct (count <? _).
  - unfold SW.allow. by destruct (len _ <? _).
  - unfold TB.allow.
    destruct (default _ (TB.buckets tb !! key)) as [tokens last_time].
    by destruct (ge _ 1).
Qed.

Lemma allow_keeps_tracked (s : RateLimitStrategy) (key : string) (now : Q) :
  tracked s ⊆ tracked (after s (strategy_allow s key now)).
Proof.
  destruct s as [fw | sw | tb]; simpl.
  - unfold FW.allow.
    destruct (FW.window_start_of fw now) as [W |]; [| done].
    destruct (default _ (FW.store fw !! key)) as [count last_window].
    destruct (negb _); [| destruct (count <? _)]; simpl;
      rewrite ?dom_insert_L; set_solver.
  - unfold SW.allow. destruct (len _ <? _); simpl;
      rewrite dom_insert_L; set_solver.
  - unfold TB.allow.
    destruct (default _ (TB.buckets tb !! key)) as [tokens last_time].
    destruct (ge _ 1); simpl; rewrite dom_insert_L; set_solver.
Qed.

(** X1.  The configuration never changes: after any history of calls, for
    any keys and clock readings, the strategy is of the same kind and holds
    the window size, maximum, refill rate and capacity it started with. *)
Theorem configuration_is_immutable
    (s : RateLimitStrategy) (h : list (string * Q)) :
  config_of (run s h).2 = config_of s.
Proof.
  apply (run_invariant (λ s', config_of s' = config_of s)); [| done].
  intros s' key now Hs'. by rewrite allow_keeps_config.
Qed.

(** X2.  No eviction: a key that has an entry keeps one through every
    history, so the set of tracked keys only grows.  A call that returns
    [True] leaves an entry for its key; the sliding window log and the token
    bucket leave one for the key of a denied call as well. *)
Theorem keys_are_never_evicted
    (s : RateLimitStrategy) (h : list (string * Q)) (key : string) (now : Q) :
  tracked s ⊆ tracked (run s h).2
  ∧ (decision (strategy_allow s key now) = Returned true →
     key ∈ tracked (after s (strategy_allow s key now)))
  ∧ ((∀ fw, s ≠ FixedWindowCounter fw) →
     key ∈ tracked (after s (strategy_allow s key now))).
Proof.
  split; [| split].
  - apply (run_invariant (λ s', tracked s ⊆ tracked s')); [| done].
    intros s' k t Hs'. etrans; [exact Hs' |]. apply allow_keeps_tracked.
  - destruct s as [fw | sw | tb]; simpl.
    + unfold FW.allow.
      destruct (FW.window_start_of fw now) as [W |]; [| done].
      destruct (default _ (FW.store fw !! key)) as [count last_window].
      destruct (negb _); [| destruct (count <? _)]; simpl;
        rewrite ?dom_insert_L; set_solver.
    + intros _. unfold SW.allow. destruct (len _ <? _); simpl;
        rewrite dom_insert_L; set_solver.
    + intros _. unfold TB.allow.
      destruct (default _ (TB.buckets tb !! key)) as [tokens last_time].
      destruct (ge _ 1); simpl; rewrite dom_insert_L; set_solver.
  - intros Hkind. destruct s as [fw | sw | tb]; simpl.
    + by destruct (Hkind fw).
    + unfold SW.allow. destruct (len _ <? _); simpl;
        rewrite dom_insert_L; set_solver.
    + unfold TB.allow.
      destruct (default _ (TB.buckets tb !! key)) as [tokens last_time].
      destruct (ge _ 1); simpl; rewrite dom_insert_L; set_solver.
Qed.

Lemma keys_are_never_evicted_witness :
  let fw := FixedWindowCounter (FW.Build 10 1 ∅) in
  let sw := SlidingWindowLog (SW.Build 10 0 ∅) in
  "10.0.0.1" ∈ tracked (after fw (strategy_allow fw "10.0.0.1" (5 # 1)))
  ∧ "10.0.0.1" ∈ tracked (after sw (strategy_allow sw "10.0.0.1" (5 # 1))).
Proof.
  intros fw sw. split.
  - refine (proj1 (proj2 (keys_are_never_evicted fw [] "10.0.0.1" (5 # 1))) _).
    reflexivity.
  - refine (proj2 (proj2 (keys_are_never_evicted sw [] "10.0.0.1" (5 # 1))) _).
    intros fw'. discriminate.
Defined.

(** ** Fixed window: alignment *)

Lemma int_mono (a b : Q) : (a <= b)%Q → int_ a <= int_ b.
Proof.
  destruct a as [n1 d1], b as [n2 d2]. unfold Qle, int_. simpl. intros Hle.
  rewrite <- (Z.quot_mul_cancel_r n1 (Z.pos d1) (Z.pos d2)) by lia.
  rewrite <- (Z.quot_mul_cancel_r n2 (Z.pos d2) (Z.pos d1)) by lia.
  rewrite (Z.mul_comm (Z.pos d2) (Z.pos d1)).
  apply Z.quot_le_mono; lia.
Qed.

Lemma align_multiple (a w : Z) : w ≠ 0 → a - a mod w = w * (a / w).
Proof. intros Hw. pose proof (Z.div_mod a w Hw). lia. Qed.

Lemma align_mono (a b w : Z) :
  0 < w → a <= b → a - a mod w <= b - b mod w.
Proof.
  intros Hw Hab. rewrite !align_multiple by lia.
  apply Z.mul_le_mono_nonneg_l; [lia |]. by apply Z.div_le_mono.
Qed.

Lemma FW_window_start_value (fw : FW.t) (now : Q) (W : Z) :
  FW.window_start_of fw now = Returned W ↔
  FW.window_size fw ≠ 0 ∧ W = int_ now - int_ now mod FW.window_size fw.
Proof.
  unfold FW.window_start_of, mod_.
  destruct (Z.eqb_spec (FW.window_size fw) 0); split.
  - discriminate.
  - intros [? _]. done.
  - intros [= <-]. done.
  - intros [_ ->]. done.
Qed.

Lemma FW_window_start_mono (fw : FW.t) (t1 t2 : Q) (W1 W2 : Z) :
  0 < FW.window_size fw →
  (t1 <= t2)%Q →
  FW.window_start_of fw t1 = Returned W1 →
  FW.window_start_of fw t2 = Returned W2 →
  W1 <= W2.
Proof.
  intros Hw Hle [_ ->]%FW_window_start_value [_ ->]%FW_window_start_value.
  apply align_mono; [done |]. by apply int_mono.
Qed.

(** X3.  Windows are aligned: the window start computed for a clock reading
    is a multiple of the window size, and the truncated reading lies in the
    window of that length that starts there (for a negative window size, in
    the window that ends there). *)
Theorem fixed_window_start_is_aligned (fw : FW.t) (now : Q) (W : Z) :
  FW.window_start_of fw now = Returned W →
  W mod FW.window_size fw = 0
  ∧ (0 < FW.window_size fw → W <= int_ now < W + FW.window_size fw)
  ∧ (FW.window_size fw < 0 → W + FW.window_size fw < int_ now <= W).
Proof.
  intros [Hw ->]%FW_window_start_value. split; [| split].
  - rewrite align_multiple by done. rewrite Z.mul_comm. by apply Z_mod_mult.
  - intros Hpos. pose proof (Z.mod_pos_bound (int_ now) _ Hpos). lia.
  - intros Hneg. pose proof (Z.mod_neg_bound (int_ now) _ Hneg). lia.
Qed.

Lemma fixed_window_start_is_aligned_witness :
  100 mod FW.window_size (FW.Build 10 2 ∅) = 0
  ∧ 100 <= int_ (1079 # 10) < 100 + 10.
Proof.
  destruct (fixed_window_start_is_aligned (FW.Build 10 2 ∅) (1079 # 10) 100)
    as (Hmod & Hpos & _).
  - reflexivity.
  - split; [exact Hmod |]. apply Hpos. simpl. lia.
Defined.

(** ** Fixed window: at most [max_requests] per window *)

Section FixedWindowBound.

Variable key : string.

Lemma in_window_true (fw : FW.t) (W : Z) (now : Q) :
  in_window fw W now = true ↔ FW.window_start_of fw now = Returned W.
Proof.
  unfold in_window. destruct (FW.window_start_of fw now) as [w |].
  - rewrite Z.eqb_eq. split; congruence.
  - split; discriminate.
Qed.

Lemma in_window_set_store (fw : FW.t) m (W : Z) :
  in_window (FW.set_store fw m) W = in_window fw W.
Proof. done. Qed.

(** No allowed reading lies in a window after the stored one. *)
Lemma filter_later_window (fw : FW.t) (W last_window : Z) (allowed : list Q) :
  Forall (λ t0, ∀ W', FW.window_start_of fw t0 = Returned W' →
                      W' <= last_window) allowed →
  last_window < W →
  List.filter (in_window fw W) allowed = [].
Proof.
  intros Hall Hlt. induction Hall as [| t0 allowed Ht0 _ IH]; [done |].
  simpl. rewrite IH. destruct (in_window fw W t0) eqn:E; [| done].
  apply in_window_true, Ht0 in E. lia.
Qed.

Lemma filter_window_snoc (fw : FW.t) (W : Z) (allowed : list Q) (now : Q) :
  len (List.filter (in_window fw W) (allowed ++ [now]))
  = len (List.filter (in_window fw W) allowed)
    + (if in_window fw W now then 1 else 0).
Proof.
  rewrite List.filter_app. unfold len. rewrite length_app. simpl.
  destruct (in_window fw W now); simpl; lia.
Qed.

(** One call keeps the invariant, the reading of an allowed call joining
    the allowed readings. *)
Lemma FW_allow_counter_invariant
    (fw : FW.t) (allowed : list Q) (last now : Q) :
  0 < FW.window_size fw →
  (last <= now)%Q →
  counter_invariant fw key allowed last →
  counter_invariant (after fw (FW.allow fw key now)) key
    (match decision (FW.allow fw key now) with
     | Returned true => allowed ++ [now]
     | _ => allowed
     end) now.
Proof.
  intros Hw Hnow [Hbound Hentry].
  destruct (FW.window_start_of fw now) as [Wn |] eqn:HWn.
  2: { unfold FW.window_start_of, mod_ in HWn.
       destruct (Z.eqb_spec (FW.window_size fw) 0); [lia | discriminate]. }
  destruct (FW.window_start_of fw last) as [Wl |] eqn:HWl.
  2: { unfold FW.window_start_of, mod_ in HWl.
       destruct (Z.eqb_spec (FW.window_size fw) 0); [lia | discriminate]. }
  pose proof (FW_window_start_mono fw last now Wl Wn Hw Hnow HWl HWn) as Hmono.
  assert (Hnow_in : in_window fw Wn now = true) by by apply in_window_true.
  assert (Hnow_out : ∀ W, W ≠ Wn → in_window fw W now = false).
  { intros W HW. apply not_true_iff_false. rewrite in_window_true. congruence. }
  destruct (FW.store fw !! key) as [[count last_window] |] eqn:Hk.
  - destruct Hentry as (HN & Hcount & Hlast & Hall).
    specialize (Hlast Wl eq_refl).
    destruct (decide (last_window = Wn)) as [-> | Hne].
    + (* same window *)
      rewrite (FW_allow_same_window key fw now Wn count HWn Hk).
      destruct (Z.ltb_spec count (FW.max_requests fw)) as [Hlt | Hge];
        cbn [decision after].
      * split.
        -- intros W. rewrite in_window_set_store, filter_window_snoc.
           destruct (decide (W = Wn)) as [-> | HW].
           ++ rewrite Hnow_in, Hcount. cbn [FW.max_requests FW.set_store]. lia.
           ++ rewrite (Hnow_out W HW). specialize (Hbound W).
              cbn [FW.max_requests FW.set_store]. lia.
        -- cbn [FW.store FW.set_store]. rewrite lookup_insert_eq.
           rewrite in_window_set_store, filter_window_snoc, Hnow_in, Hcount.
           repeat split; [done | |].
           ++ intros W HW. rewrite FW_window_start_set_store in HW.
              assert (W = Wn) by congruence. lia.
           ++ apply Forall_app. split; [exact Hall |].
              repeat constructor. intros W HW.
              rewrite FW_window_start_set_store in HW.
              assert (W = Wn) by congruence. lia.
      * split; [done |]. rewrite Hk. repeat split; try done.
        intros W HW. assert (W = Wn) by congruence. lia.
    + (* the stored window is an earlier one *)
      assert (Hlt : last_window < Wn) by lia.
      rewrite (FW_allow_rollover key fw now Wn count last_window HWn Hk Hne).
      cbn [decision after].
      pose proof (filter_later_window fw Wn last_window allowed Hall Hlt)
        as Hnone.
      split.
      * intros W. rewrite in_window_set_store, filter_window_snoc.
        destruct (decide (W = Wn)) as [-> | HW].
        -- rewrite Hnow_in, Hnone. cbn [FW.max_requests FW.set_store].
           unfold len. simpl. lia.
        -- rewrite (Hnow_out W HW). specialize (Hbound W).
           cbn [FW.max_requests FW.set_store]. lia.
      * cbn [FW.store FW.set_store]. rewrite lookup_insert_eq.
        rewrite in_window_set_store, filter_window_snoc, Hnow_in, Hnone.
        repeat split; [done | |].
        -- intros W HW. rewrite FW_window_start_set_store in HW.
           assert (W = Wn) by congruence. lia.
        -- apply Forall_app. split.
           ++ eapply Forall_impl; [exact Hall |].
              intros t0 Ht0 W HW. specialize (Ht0 W HW). lia.
           ++ repeat constructor. intros W HW.
              rewrite FW_window_start_set_store in HW.
              assert (W = Wn) by congruence. lia.
  - (* first call of the key *)
    subst allowed.
    rewrite (FW_allow_absent key fw now Wn HWn Hk).
    destruct (Z.ltb_spec 0 (FW.max_requests fw)) as [Hlt | Hge];
      cbn [decision after].
    + split.
      * intros W. rewrite in_window_set_store.
        cbn [FW.max_requests FW.set_store app List.filter].
        destruct (in_window fw W now); unfold len; simpl; lia.
      * cbn [FW.store FW.set_store]. rewrite lookup_insert_eq.
        rewrite in_window_set_store. cbn [app List.filter].
        rewrite Hnow_in.
        repeat split; [simpl; lia | |].
        -- intros W HW. rewrite FW_window_start_set_store in HW.
           assert (W = Wn) by congruence. lia.
        -- repeat constructor. intros W HW.
           rewrite FW_window_start_set_store in HW.
           assert (W = Wn) by congruence. lia.
    + split; [done |]. by rewrite Hk.
Qed.

End FixedWindowBound.

Lemma FW_allow_keeps_parameters (fw : FW.t) (key : string) (now : Q) :
  FW.window_size (after fw (FW.allow fw key now)) = FW.window_size fw
  ∧ FW.max_requests (after fw (FW.allow fw key now)) = FW.max_requests fw.
Proof.
  unfold FW.allow.
  destruct (FW.window_start_of fw now) as [W |]; [| done].
  destruct (default _ (FW.store fw !! key)) as [count last_window].
  destruct (negb _); [done |]. by destruct (count <? _).
Qed.

Lemma FW_run_counter_bound (key : string) (times : list Q) :
  ∀ (fw : FW.t) (allowed : list Q) (last : Q) (W : Z),
    0 < FW.window_size fw →
    nondecreasing (last :: times) = true →
    counter_invariant fw key allowed last →
    len (List.filter (in_window fw W)
           (allowed ++ allowed_times times
                         (run (FixedWindowCounter fw) (calls_of key times)).1))
      <= FW.max_requests fw.
Proof.
  induction times as [| now times IH]; intros fw allowed last W Hw Hnd Hinv.
  - simpl. rewrite app_nil_r. apply Hinv.
  - cbn [nondecreasing] in Hnd. apply andb_true_iff in Hnd as [Hnow Hnd].
    apply Qle_bool_iff in Hnow.
    pose proof (FW_allow_counter_invariant key fw allowed last now Hw Hnow Hinv)
      as Hstep.
    destruct (FW_allow_keeps_parameters fw key now) as [Hws Hmax].
    unfold calls_of. rewrite map_cons, run_cons. fold (calls_of key times).
    destruct (strategy_allow_fixed_window key fw now) as [-> ->].
    cbn [fst allowed_times].
    set (fw' := after fw (FW.allow fw key now)) in *.
    assert (Hwin : in_window fw W = in_window fw' W).
    { unfold in_window, FW.window_start_of. by rewrite Hws. }
    rewrite Hwin, <- Hmax.
    destruct (decision (FW.allow fw key now)) as [[|] | e].
    + rewrite (app_assoc allowed [now] _ : allowed ++ now :: _ = _).
      apply (IH fw' _ now); [by rewrite Hws | done | done].
    + apply (IH fw' _ now); [by rewrite Hws | done | done].
    + apply (IH fw' _ now); [by rewrite Hws | done | done].
Qed.

(** X4.  Fixed window, positive window size, [max_requests] not negative, a
    key seen for the first time: as long as the clock readings never go
    backward, no aligned window holds more than [max_requests] calls of the
    key that returned [True]. *)
Theorem fixed_window_never_exceeds_max_requests_per_window
    (fw : FW.t) (key : string) (times : list Q) (W : Z) :
  0 < FW.window_size fw →
  0 <= FW.max_requests fw →
  FW.store fw !! key = None →
  nondecreasing times = true →
  len (List.filter (in_window fw W)
         (allowed_times times
            (run (FixedWindowCounter fw) (calls_of key times)).1))
    <= FW.max_requests fw.
Proof.
  intros Hw HN Hk Hnd.
  destruct times as [| t0 times]; [done |].
  apply (FW_run_counter_bound key (t0 :: times) fw [] t0 W Hw).
  - by apply nondecreasing_head_twice.
  - split; [done |]. by rewrite Hk.
Qed.

Lemma fixed_window_never_exceeds_max_requests_per_window_witness :
  let fw := FW.Build 10 2 ∅ in
  let times := [100 # 1; 101 # 1; 1019 # 10; 109 # 1; 110 # 1; 111 # 1]%Q in
  len (List.filter (in_window fw 100)
         (allowed_times times
            (run (FixedWindowCounter fw) (calls_of "10.0.0.1" times)).1))
    <= 2.
Proof.
  intros fw times.
  refine (fixed_window_never_exceeds_max_requests_per_window
            fw "10.0.0.1" times 100 _ _ _ _).
  - simpl. lia.
  - simpl. lia.
  - reflexivity.
  - reflexivity.
Defined.

(** ** Fixed window: bursts *)

Section FixedWindowBursts.

Variable key : string.

Lemma all_in_window_parameters (fw fw' : FW.t) (W : Z) (times : list Q) :
  FW.window_size fw' = FW.window_size fw →
  all_in_window fw' W times = all_in_window fw W times.
Proof.
  intros Hws. unfold all_in_window, FW.window_start_of. by rewrite Hws.
Qed.

(** Calls that open a window for the key and stay within its allowance. *)
Lemma FW_run_new_window (W : Z) (times : list Q) (fw : FW.t) :
  times ≠ [] →
  all_in_window fw W times = true →
  fresh_in_window fw key W = true →
  len times <= FW.max_requests fw →
  ∃ fw',
    run (FixedWindowCounter fw) (calls_of key times)
      = (replicate (length times) (Returned true), FixedWindowCounter fw')
    ∧ FW.store fw' !! key = Some (len times, W)
    ∧ FW.window_size fw' = FW.window_size fw
    ∧ FW.max_requests fw' = FW.max_requests fw.
Proof.
  intros Hne Hin Hfresh Hlen.
  destruct times as [| now times]; [done |].
  apply all_in_window_cons in Hin as [HW Hin].
  unfold len in Hlen. cbn [length] in Hlen.
  assert (Hfirst :
    FW.allow fw key now =
      Returned (true, FW.set_store fw (<[key := (1, W)]> (FW.store fw)))).
  { unfold fresh_in_window in Hfresh.
    destruct (FW.store fw !! key) as [[count last_window] |] eqn:Hk.
    - apply negb_true_iff, Z.eqb_neq in Hfresh.
      by apply (FW_allow_rollover key fw now W count last_window).
    - rewrite (FW_allow_absent key fw now W HW Hk).
      by destruct (Z.ltb_spec 0 (FW.max_requests fw)); [| lia]. }
  unfold calls_of. rewrite map_cons, run_cons. fold (calls_of key times).
  cbn [strategy_allow]. rewrite Hfirst. cbn [decision after].
  destruct (FW_run_same_window key W times
              (FW.set_store fw (<[key := (1, W)]> (FW.store fw))) 1)
    as (fw' & Hrun & Hk' & Hws & Hmax).
  - by apply all_in_window_elem.
  - apply lookup_insert_eq.
  - simpl. lia.
  - cbn [FW.max_requests FW.set_store FW.window_size] in *.
    replace (Nat.min (length times) (Z.to_nat (FW.max_requests fw - 1)))
      with (length times) in * by lia.
    rewrite Nat.sub_diag, app_nil_r in Hrun.
    exists fw'. rewrite Hrun. cbn [fst snd length replicate].
    repeat split; try done.
    rewrite Hk'. unfold len. cbn [length]. do 2 f_equal. lia.
Qed.

End FixedWindowBursts.

(** X5.  The boundary burst of the fixed window: [max_requests] calls of a
    new key in one aligned window followed by [max_requests] calls in
    another window all return [True], however close the two groups are in
    time - twice the maximum can pass within less than one window size. *)
Theorem fixed_window_boundary_burst
    (fw : FW.t) (key : string) (W W' : Z) (before after_ : list Q) :
  FW.store fw !! key = None →
  W ≠ W' →
  all_in_window fw W before = true →
  all_in_window fw W' after_ = true →
  len before = FW.max_requests fw →
  len after_ = FW.max_requests fw →
  (run (FixedWindowCounter fw) (calls_of key (before ++ after_))).1
    = replicate (length before + length after_) (Returned true).
Proof.
  intros Hk HW Hin Hin' Hlen Hlen'.
  destruct before as [| t0 before].
  { destruct after_; [done |]. unfold len in *. simpl in *. lia. }
  destruct (FW_run_new_window key W (t0 :: before) fw)
    as (fw1 & Hrun & Hk1 & Hws & Hmax); [done | done | | lia |].
  { unfold fresh_in_window. by rewrite Hk. }
  destruct (FW_run_new_window key W' after_ fw1)
    as (fw2 & Hrun' & _).
  - destruct after_; [| done]. unfold len in *. simpl in *. lia.
  - by rewrite (all_in_window_parameters fw).
  - unfold fresh_in_window. rewrite Hk1.
    apply negb_true_iff, Z.eqb_neq. done.
  - lia.
  - unfold calls_of. rewrite map_app. fold (calls_of key (t0 :: before)).
    fold (calls_of key after_).
    rewrite run_app, Hrun. cbn [fst snd]. rewrite Hrun'. cbn [fst].
    by rewrite replicate_add.
Qed.

Lemma fixed_window_boundary_burst_witness :
  (run (FixedWindowCounter (FW.Build 10 2 ∅))
     (calls_of "10.0.0.1" ([109 # 1; 1095 # 10] ++ [110 # 1; 1102 # 10])%Q)).1
    = [Returned true; Returned true; Returned true; Returned true].
Proof.
  refine (fixed_window_boundary_burst (FW.Build 10 2 ∅) "10.0.0.1" 100 110
            [109 # 1; 1095 # 10]%Q [110 # 1; 1102 # 10]%Q _ _ _ _ _ _).
  - reflexivity.
  - lia.
  - reflexivity.
  - reflexivity.
  - reflexivity.
  - reflexivity.
Defined.

(** ** Fixed window: what the dictionary holds *)

Lemma FW_window_start_multiple (fw : FW.t) (now : Q) (W : Z) :
  FW.window_start_of fw now = Returned W → W mod FW.window_size fw = 0.
Proof.
  intros [Hw ->]%FW_window_start_value.
  rewrite align_multiple by done. rewrite Z.mul_comm. by apply Z_mod_mult.
Qed.

Lemma FW_allow_keeps_entries (fw : FW.t) (key : string) (now : Q) :
  (∀ k c w, FW.store fw !! k = Some (c, w) →
            1 <= c <= Z.max 1 (FW.max_requests fw)
            ∧ w mod FW.window_size fw = 0) →
  ∀ k c w, FW.store (after fw (FW.allow fw key now)) !! k = Some (c, w) →
           1 <= c <= Z.max 1 (FW.max_requests fw)
           ∧ w mod FW.window_size fw = 0.
Proof.
  intros Hinv k c w. unfold FW.allow.
  destruct (FW.window_start_of fw now) as [W |] eqn:HW; [| apply Hinv].
  pose proof (FW_window_start_multiple fw now W HW) as Hmult.
  assert (Hold : ∀ c0 w0, default (0, W) (FW.store fw !! key) = (c0, w0) →
                          0 <= c0).
  { intros c0 w0. destruct (FW.store fw !! key) as [[c1 w1] |] eqn:Hk; simpl.
    - intros [= <- <-]. destruct (Hinv key c1 w1 Hk). lia.
    - intros [= <- <-]. lia. }
  destruct (default _ (FW.store fw !! key)) as [count last_window].
  specialize (Hold count last_window eq_refl).
  destruct (negb _); [| destruct (Z.ltb_spec count (FW.max_requests fw))];
    cbn [after FW.store FW.set_store]; try apply Hinv.
  - destruct (decide (key = k)) as [-> | Hne].
    + rewrite lookup_insert_eq. intros [= <- <-]. split; [lia | done].
    + rewrite lookup_insert_ne by done. apply Hinv.
  - destruct (decide (key = k)) as [-> | Hne].
    + rewrite lookup_insert_eq. intros [= <- <-]. split; [lia | done].
    + rewrite lookup_insert_ne by done. apply Hinv.
Qed.

(** X6.  Fixed window, any history over any keys and any clock, failing
    calls included: every entry of the dictionary holds a count of at least
    1 and at most [max_requests] (at most 1 when [max_requests] is below 1),
    and a window start that is a multiple of the window size - provided the
    entries the strategy started with are such, as the empty dictionary of a
    new strategy is. *)
Theorem fixed_window_entries_are_well_formed
    (fw : FW.t) (h : list (string * Q)) (key : string) (count W : Z) :
  (∀ k c w, FW.store fw !! k = Some (c, w) →
            1 <= c <= Z.max 1 (FW.max_requests fw)
            ∧ w mod FW.window_size fw = 0) →
  key_state_of (run (FixedWindowCounter fw) h).2 key
    = FixedWindowState (Some (count, W)) →
  1 <= count <= Z.max 1 (FW.max_requests fw)
  ∧ W mod FW.window_size fw = 0.
Proof.
  intros Hinv.
  pose (P := λ s : RateLimitStrategy,
          ∃ fw', s = FixedWindowCounter fw'
                 ∧ FW.window_size fw' = FW.window_size fw
                 ∧ FW.max_requests fw' = FW.max_requests fw
                 ∧ ∀ k c w, FW.store fw' !! k = Some (c, w) →
                            1 <= c <= Z.max 1 (FW.max_requests fw)
                            ∧ w mod FW.window_size fw = 0).
  assert (HP : P (run (FixedWindowCounter fw) h).2).
  { apply run_invariant; [| by exists fw].
    intros s k now (fw' & -> & Hws & Hmax & Hentries).
    destruct (strategy_allow_fixed_window k fw' now) as [_ ->].
    destruct (FW_allow_keeps_parameters fw' k now) as [Hws' Hmax'].
    exists (after fw' (FW.allow fw' k now)).
    split; [done |]. split; [congruence |]. split; [congruence |].
    rewrite <- Hws, <- Hmax. apply FW_allow_keeps_entries.
    by rewrite Hws, Hmax. }
  destruct HP as (fw' & -> & _ & _ & Hentries). simpl.
  intros [= Hk]. by apply (Hentries key).
Qed.

Lemma fixed_window_entries_are_well_formed_witness :
  let h := [("a", 100 # 1); ("b", 101 # 1); ("a", 95 # 1); ("a", 96 # 1);
            ("a", 97 # 1)]%Q in
  1 <= 2 <= Z.max 1 2 ∧ 90 mod 10 = 0.
Proof.
  intros h.
  refine (fixed_window_entries_are_well_formed
            (FW.Build 10 2 ∅) h "a" 2 90 _ _).
  - intros k c w Hk. simpl in Hk. rewrite lookup_empty in Hk. discriminate.
  - reflexivity.
Defined.

(** ** Fixed window and sliding window: a new key is not denied early *)

Lemma FW_run_under_max (key : string) (times : list Q) :
  ∀ fw : FW.t,
    FW.window_size fw ≠ 0 →
    (∀ c w, FW.store fw !! key = Some (c, w) →
            0 <= c ∧ c + len times <= FW.max_requests fw) →
    len times <= FW.max_requests fw →
    (run (FixedWindowCounter fw) (calls_of key times)).1
      = replicate (length times) (Returned true).
Proof.
  induction times as [| now times IH]; intros fw Hw Hc Hlen; [done |].
  unfold len in Hlen, Hc. cbn [length] in Hlen, Hc.
  unfold calls_of. rewrite map_cons, run_cons. fold (calls_of key times).
  destruct (strategy_allow_fixed_window key fw now) as [-> ->].
  destruct (FW_allow_keeps_parameters fw key now) as [Hws Hmax].
  destruct (FW.window_start_of fw now) as [W |] eqn:HW.
  2: { unfold FW.window_start_of, mod_ in HW.
       destruct (Z.eqb_spec (FW.window_size fw) 0); [done | discriminate]. }
  assert (Hstep : decision (FW.allow fw key now) = Returned true
          ∧ ∃ c, FW.store (after fw (FW.allow fw key now)) !! key = Some (c, W)
                 ∧ 0 <= c
                 ∧ c + len times <= FW.max_requests fw).
  { destruct (FW.store fw !! key) as [[c last_window] |] eqn:Hk.
    - destruct (Hc c last_window eq_refl) as [Hc0 Hc1].
      destruct (decide (last_window = W)) as [-> | Hne].
      + rewrite (FW_allow_same_window key fw now W c HW Hk).
        destruct (Z.ltb_spec c (FW.max_requests fw)); [| lia].
        split; [done |]. exists (c + 1). cbn [after FW.store FW.set_store].
        rewrite lookup_insert_eq. unfold len. repeat split; [lia | lia].
      + rewrite (FW_allow_rollover key fw now W c last_window HW Hk Hne).
        split; [done |]. exists 1. cbn [after FW.store FW.set_store].
        rewrite lookup_insert_eq. unfold len. repeat split; [lia | lia].
    - rewrite (FW_allow_absent key fw now W HW Hk).
      destruct (Z.ltb_spec 0 (FW.max_requests fw)); [| lia].
      split; [done |]. exists 1. cbn [after FW.store FW.set_store].
      rewrite lookup_insert_eq. unfold len. repeat split; [lia | lia]. }
  destruct Hstep as (-> & c & Hk' & Hc0 & Hc1).
  cbn [fst length replicate]. f_equal.
  apply IH.
  - by rewrite Hws.
  - intros c' w'. rewrite Hk'. intros [= <- <-]. rewrite Hmax. done.
  - rewrite Hmax. unfold len. lia.
Qed.

Lemma SW_run_under_max (key : string) (times : list Q) :
  ∀ sw : SW.t,
    len (default [] (SW.logs sw !! key)) + len times <= SW.max_requests sw →
    (run (SlidingWindowLog sw) (calls_of key times)).1
      = replicate (length times) (Returned true).
Proof.
  induction times as [| now times IH]; intros sw Hlen; [done |].
  unfold len in Hlen. cbn [length] in Hlen.
  unfold calls_of. rewrite map_cons, run_cons. fold (calls_of key times).
  cbn [strategy_allow]. unfold SW.allow.
  pose proof (purge_length (SW.window_start_of sw now)
                (default [] (SW.logs sw !! key))) as Hpurge.
  destruct (Z.ltb_spec
              (len (SW.purge (SW.window_start_of sw now)
                      (default [] (SW.logs sw !! key))))
              (SW.max_requests sw)) as [Hlt | Hge];
    [| unfold len in Hge; lia].
  cbn [decision after fst length replicate]. f_equal.
  apply IH. rewrite SW_logs_set_logs, SW_max_requests_set_logs.
  rewrite lookup_insert_eq.
  change (len (SW.purge (SW.window_start_of sw now)
                 (default [] (SW.logs sw !! key)) ++ [now])
            + len times <= SW.max_requests sw).
  unfold len. rewrite length_app. cbn [length]. lia.
Qed.

(** X7.  Neither window strategy denies a new key before it has used its
    allowance: the first [max_requests] calls of a key seen for the first
    time all return [True], whatever the clock readings are and in whatever
    order they come (for the fixed window the window size must not be 0). *)
Theorem new_key_gets_max_requests_calls
    (key : string) (times : list Q) :
  (∀ fw : FW.t,
     FW.window_size fw ≠ 0 →
     FW.store fw !! key = None →
     len times <= FW.max_requests fw →
     (run (FixedWindowCounter fw) (calls_of key times)).1
       = replicate (length times) (Returned true))
  ∧ (∀ sw : SW.t,
       SW.logs sw !! key = None →
       len times <= SW.max_requests sw →
       (run (SlidingWindowLog sw) (calls_of key times)).1
         = replicate (length times) (Returned true)).
Proof.
  split.
  - intros fw Hw Hk Hlen. apply FW_run_under_max; [done | | done].
    intros c w. by rewrite Hk.
  - intros sw Hk Hlen. apply SW_run_under_max. rewrite Hk. done.
Qed.

Lemma new_key_gets_max_requests_calls_witness :
  let times := [100 # 1; 3 # 1; 250 # 1]%Q in
  (run (FixedWindowCounter (FW.Build 10 3 ∅)) (calls_of "a" times)).1
    = [Returned true; Returned true; Returned true]
  ∧ (run (SlidingWindowLog (SW.Build 10 3 ∅)) (calls_of "a" times)).1
    = [Returned true; Returned true; Returned true].
Proof.
  intros times.
  destruct (new_key_gets_max_requests_calls "a" times) as [Hfw Hsw].
  split.
  - refine (Hfw (FW.Build 10 3 ∅) _ _ _).
    + simpl. lia.
    + reflexivity.
    + reflexivity.
  - refine (Hsw (SW.Build 10 3 ∅) _ _).
    + reflexivity.
    + reflexivity.
Defined.

(** ** Sliding window: what the dictionary holds *)

Lemma SW_allow_keeps_parameters (sw : SW.t) (key : string) (now : Q) :
  SW.window_size (SW.allow sw key now).2 = SW.window_size sw
  ∧ SW.max_requests (SW.allow sw key now).2 = SW.max_requests sw.
Proof. unfold SW.allow. by destruct (len _ <? _). Qed.

Lemma SW_allow_stored_log (sw : SW.t) (key : string) (now : Q) :
  let log := SW.purge (SW.window_start_of sw now)
               (default [] (SW.logs sw !! key)) in
  SW.logs (SW.allow sw key now).2
  = <[key := if (SW.allow sw key now).1 then log ++ [now] else log]>
      (SW.logs sw)
  ∧ (SW.allow sw key now).1 = (len log <? SW.max_requests sw).
Proof. intros log. unfold SW.allow. fold log. by destruct (len log <? _). Qed.

Lemma strategy_allow_sliding_window (sw : SW.t) (key : string) (now : Q) :
  decision (strategy_allow (SlidingWindowLog sw) key now)
    = Returned (SW.allow sw key now).1
  ∧ after (SlidingWindowLog sw)
      (strategy_allow (SlidingWindowLog sw) key now)
    = SlidingWindowLog (SW.allow sw key now).2.
Proof. simpl. by destruct (SW.allow sw key now). Qed.

(** X8.  Sliding window, [max_requests] not negative, any history over any
    keys and any clock: no log in the dictionary is ever longer than
    [max_requests] - provided the logs the strategy started with are not,
    as in a new strategy. *)
Theorem sliding_window_logs_stay_short
    (sw : SW.t) (h : list (string * Q)) (key : string) (log : list Q) :
  0 <= SW.max_requests sw →
  (∀ k l, SW.logs sw !! k = Some l → len l <= SW.max_requests sw) →
  key_state_of (run (SlidingWindowLog sw) h).2 key
    = SlidingWindowState (Some log) →
  len log <= SW.max_requests sw.
Proof.
  intros HN Hinv.
  pose (P := λ s : RateLimitStrategy,
          ∃ sw', s = SlidingWindowLog sw'
                 ∧ SW.max_requests sw' = SW.max_requests sw
                 ∧ ∀ k l, SW.logs sw' !! k = Some l →
                          len l <= SW.max_requests sw).
  assert (HP : P (run (SlidingWindowLog sw) h).2).
  { apply run_invariant; [| by exists sw].
    intros s k now (sw' & -> & Hmax & Hlogs).
    destruct (strategy_allow_sliding_window sw' k now) as [_ ->].
    destruct (SW_allow_keeps_parameters sw' k now) as [_ Hmax'].
    destruct (SW_allow_stored_log sw' k now) as [Hstored Hdec].
    exists (SW.allow sw' k now).2.
    split; [done |]. split; [congruence |].
    intros k' l. rewrite Hstored.
    destruct (decide (k = k')) as [<- | Hne].
    - rewrite lookup_insert_eq. intros [= <-].
      pose proof (purge_length (SW.window_start_of sw' now)
                    (default [] (SW.logs sw' !! k))) as Hpurge.
      assert (Hold : len (default [] (SW.logs sw' !! k))
                     <= SW.max_requests sw).
      { destruct (SW.logs sw' !! k) as [l0 |] eqn:Hk; [by apply (Hlogs k) |].
        done. }
      rewrite Hdec.
      destruct (Z.ltb_spec
                  (len (SW.purge (SW.window_start_of sw' now)
                          (default [] (SW.logs sw' !! k))))
                  (SW.max_requests sw')) as [Hlt | Hge].
      + unfold len in *. rewrite length_app. cbn [length]. lia.
      + unfold len in *. lia.
    - rewrite lookup_insert_ne by done. apply Hlogs. }
  destruct HP as (sw' & -> & _ & Hlogs). simpl.
  intros [= Hk]. by apply (Hlogs key).
Qed.

Lemma sliding_window_logs_stay_short_witness :
  let h := [("a", 100 # 1); ("b", 101 # 1); ("a", 102 # 1); ("a", 103 # 1)]%Q in
  len [100 # 1; 102 # 1]%Q <= 2.
Proof.
  intros h.
  refine (sliding_window_logs_stay_short (SW.Build 10 2 ∅) h "a"
            [100 # 1; 102 # 1]%Q _ _ _).
  - simpl. lia.
  - intros k l Hk. simpl in Hk. rewrite lookup_empty in Hk. discriminate.
  - reflexivity.
Defined.

(** ** Sliding window: the log is the trailing window *)










(** ** Token bucket: the stored token count *)

Lemma min_ge_iff (a b c : Q) : (c <= min_ a b)%Q ↔ (c <= a)%Q ∧ (c <= b)%Q.
Proof.
  unfold min_. destruct (lt b a) eqn:E.
  - apply lt_true in E. split; [intros; split |]; lra.
  - apply lt_false in E. split; [intros; split |]; lra.
Qed.

Lemma TB_allow_spec (tb : TB.t) (key : string) (now : Q) :
  let entry := default (inject_Z (TB.capacity tb), now) (TB.buckets tb !! key) in
  let refilled := TB.refill tb entry.1 entry.2 now in
  (TB.allow tb key now).1 = ge refilled 1
  ∧ TB.buckets (TB.allow tb key now).2
    = <[key := (if ge refilled 1 then (refilled - 1)%Q else refilled, now)]>
        (TB.buckets tb)
  ∧ TB.refill_rate (TB.allow tb key now).2 = TB.refill_rate tb
  ∧ TB.capacity (TB.allow tb key now).2 = TB.capacity tb.
Proof.
  intros entry refilled. unfold TB.allow. fold entry.
  subst refilled. destruct entry as [tokens last_time]. cbn [fst snd].
  by destruct (ge _ 1).
Qed.

Lemma strategy_allow_token_bucket (tb : TB.t) (key : string) (now : Q) :
  decision (strategy_allow (TokenBucket tb) key now)
    = Returned (TB.allow tb key now).1
  ∧ after (TokenBucket tb) (strategy_allow (TokenBucket tb) key now)
    = TokenBucket (TB.allow tb key now).2.
Proof. simpl. by destruct (TB.allow tb key now). Qed.

(** X11.  Token bucket, any history over any keys, any clock - backward
    jumps included - and any refill rate: the token count stored for a key
    never exceeds the capacity, provided the buckets the strategy started
    with do not, as in a new strategy. *)
Theorem token_bucket_never_holds_more_than_capacity
    (tb : TB.t) (h : list (string * Q)) (key : string) (tokens last_time : Q) :
  (∀ k tok l, TB.buckets tb !! k = Some (tok, l) →
              (tok <= inject_Z (TB.capacity tb))%Q) →
  key_state_of (run (TokenBucket tb) h).2 key
    = TokenBucketState (Some (tokens, last_time)) →
  (tokens <= inject_Z (TB.capacity tb))%Q.
Proof.
  intros Hinv.
  pose (P := λ s : RateLimitStrategy,
          ∃ tb', s = TokenBucket tb'
                 ∧ TB.capacity tb' = TB.capacity tb
                 ∧ ∀ k tok l, TB.buckets tb' !! k = Some (tok, l) →
                              (tok <= inject_Z (TB.capacity tb))%Q).
  assert (HP : P (run (TokenBucket tb) h).2).
  { apply run_invariant; [| by exists tb].
    intros s k now (tb' & -> & Hcap & Hbuckets).
    destruct (strategy_allow_token_bucket tb' k now) as [_ ->].
    destruct (TB_allow_spec tb' k now) as (_ & Hstored & _ & Hcap').
    exists (TB.allow tb' k now).2.
    split; [done |]. split; [congruence |].
    intros k' tok l. rewrite Hstored.
    destruct (decide (k = k')) as [<- | Hne].
    - rewrite lookup_insert_eq. intros [= <- <-].
      set (entry := default _ (TB.buckets tb' !! k)).
      pose proof (min_le_l (inject_Z (TB.capacity tb'))
                    (entry.1 + (now - entry.2) * TB.refill_rate tb')) as Hmin.
      fold (TB.refill tb' entry.1 entry.2 now) in Hmin.
      rewrite Hcap in Hmin.
      destruct (ge _ 1); lra.
    - rewrite lookup_insert_ne by done. apply Hbuckets. }
  destruct HP as (tb' & -> & _ & Hbuckets). simpl.
  intros [= Hk]. by apply (Hbuckets key tokens last_time).
Qed.

Lemma token_bucket_never_holds_more_than_capacity_witness :
  (4 <= inject_Z (TB.capacity (TB.Build 1 5 ∅)))%Q.
Proof.
  refine (token_bucket_never_holds_more_than_capacity
            (TB.Build 1 5 ∅)
            [("a", 100 # 1); ("a", 50 # 1); ("a", 900 # 1)]%Q
            "a" 4 (900 # 1) _ _).
  - intros k tok l Hk. simpl in Hk. rewrite lookup_empty in Hk. discriminate.
  - reflexivity.
Defined.

Lemma TB_allow_keeps_nonnegative
    (tb : TB.t) (key : string) (last now : Q) :
  (0 <= TB.refill_rate tb)%Q →
  0 <= TB.capacity tb →
  (last <= now)%Q →
  (∀ k tok l, TB.buckets tb !! k = Some (tok, l) →
              (0 <= tok)%Q ∧ (l <= last)%Q) →
  ∀ k tok l, TB.buckets (TB.allow tb key now).2 !! k = Some (tok, l) →
             (0 <= tok)%Q ∧ (l <= now)%Q.
Proof.
  intros Hrate Hcap Hnow Hinv k tok l.
  assert (Hcap' : (0 <= inject_Z (TB.capacity tb))%Q)
    by (by rewrite <- (Zle_Qle 0)).
  destruct (TB_allow_spec tb key now) as (_ & -> & _).
  destruct (decide (key = k)) as [<- | Hne].
  - rewrite lookup_insert_eq. intros [= <- <-].
    split; [| lra].
    set (entry := default _ (TB.buckets tb !! key)).
    assert (Hentry : (0 <= entry.1)%Q ∧ (entry.2 <= now)%Q).
    { unfold entry.
      destruct (TB.buckets tb !! key) as [[tok l] |] eqn:Hk; simpl.
      - destruct (Hinv key tok l Hk). split; lra.
      - split; lra. }
    destruct Hentry as [Htok Hlast].
    assert (Hgain : (0 <= (now - entry.2) * TB.refill_rate tb)%Q)
      by (apply Qmult_le_0_compat; lra).
    assert (Hrefilled : (0 <= TB.refill tb entry.1 entry.2 now)%Q).
    { unfold TB.refill. apply min_ge_iff. split; lra. }
    destruct (ge _ 1) eqn:Ege; [| done].
    apply ge_true in Ege. lra.
  - rewrite lookup_insert_ne by done. intros Hk.
    destruct (Hinv k tok l Hk). split; lra.
Qed.

Lemma TB_run_keeps_nonnegative (h : list (string * Q)) :
  ∀ (tb : TB.t) (last : Q),
    (0 <= TB.refill_rate tb)%Q →
    0 <= TB.capacity tb →
    nondecreasing (last :: clock_of h) = true →
    (∀ k tok l, TB.buckets tb !! k = Some (tok, l) →
                (0 <= tok)%Q ∧ (l <= last)%Q) →
    ∃ tb', (run (TokenBucket tb) h).2 = TokenBucket tb'
           ∧ ∀ k tok l, TB.buckets tb' !! k = Some (tok, l) → (0 <= tok)%Q.
Proof.
  induction h as [| [key now] h IH]; intros tb last Hrate Hcap Hnd Hinv.
  - exists tb. split; [done |]. intros k tok l Hk. by destruct (Hinv k tok l Hk).
  - cbn [clock_of map snd nondecreasing] in Hnd.
    apply andb_true_iff in Hnd as [Hnow Hnd]. apply Qle_bool_iff in Hnow.
    rewrite run_cons. cbn [snd].
    destruct (strategy_allow_token_bucket tb key now) as [_ ->].
    destruct (TB_allow_spec tb key now) as (_ & _ & Hrate' & Hcap').
    apply (IH _ now).
    + by rewrite Hrate'.
    + by rewrite Hcap'.
    + done.
    + by apply (TB_allow_keeps_nonnegative tb key last now).
Qed.

(** X12.  Token bucket with refill rate and capacity not negative, started
    without buckets: as long as the clock readings of the history - over all
    keys - never go backward, no stored token count is negative. *)
Theorem token_bucket_tokens_are_not_negative
    (refill_rate : Q) (capacity : Z) (h : list (string * Q))
    (key : string) (tokens last_time : Q) :
  (0 <= refill_rate)%Q →
  0 <= capacity →
  nondecreasing (clock_of h) = true →
  key_state_of (run (TokenBucket (TB.Build refill_rate capacity ∅)) h).2 key
    = TokenBucketState (Some (tokens, last_time)) →
  (0 <= tokens)%Q.
Proof.
  intros Hrate Hcap Hnd.
  destruct h as [| [k0 t0] h]; [done |].
  destruct (TB_run_keeps_nonnegative ((k0, t0) :: h)
              (TB.Build refill_rate capacity ∅) t0)
    as (tb' & -> & Hbuckets); try done.
  - cbn [clock_of map snd]. by apply nondecreasing_head_twice.
  - simpl. intros [= Hk]. by apply (Hbuckets key tokens last_time).
Qed.

Lemma token_bucket_tokens_are_not_negative_witness : (0 <= 4)%Q.
Proof.
  refine (token_bucket_tokens_are_not_negative 1 5
            [("a", 100 # 1); ("b", 100 # 1); ("a", 900 # 1)]%Q
            "a" 4 (900 # 1) _ _ _ _).
  - discriminate.
  - lia.
  - reflexivity.
  - reflexivity.
Defined.

(** ** Token bucket: bursts and refill *)

Section TokenBucketBursts.

Variable key : string.

(** Calls on a bucket that holds a whole number of tokens and is never
    refilled: they are served until the tokens are used up. *)
Lemma TB_run_rate_zero (times : list Q) :
  ∀ (tb : TB.t) (tokens last_time : Q) (c : nat),
    (TB.refill_rate tb == 0)%Q →
    TB.buckets tb !! key = Some (tokens, last_time) →
    (tokens == inject_Z (Z.of_nat c))%Q →
    Z.of_nat c <= TB.capacity tb →
    (run (TokenBucket tb) (calls_of key times)).1
      = replicate (Nat.min (length times) c) (Returned true)
          ++ replicate (length times - Nat.min (length times) c)
               (Returned false).
Proof.
  induction times as [| now times IH];
    intros tb tokens last_time c Hrate Hk Htok Hc; [done |].
  unfold calls_of. rewrite map_cons, run_cons. fold (calls_of key times).
  destruct (strategy_allow_token_bucket tb key now) as [-> ->].
  destruct (TB_allow_spec tb key now) as (Hdec & Hstored & Hrate' & Hcap').
  rewrite Hk in Hdec, Hstored. cbn [default] in Hdec, Hstored.
  unfold id in Hdec, Hstored. cbn [fst snd] in Hdec, Hstored.
  assert (Hc' : (inject_Z (Z.of_nat c) <= inject_Z (TB.capacity tb))%Q)
    by (by rewrite <- Zle_Qle).
  assert (Hrefilled : (TB.refill tb tokens last_time now == tokens)%Q).
  { rewrite TB_refill_below_capacity; rewrite Hrate; lra. }
  set (refilled := TB.refill tb tokens last_time now) in *.
  cbn [fst].
  destruct c as [| c].
  - (* nothing left *)
    change (inject_Z (Z.of_nat 0)) with 0%Q in Htok.
    assert (Ege : ge refilled 1 = false) by (apply ge_false; lra).
    rewrite Ege in Hdec, Hstored. rewrite Hdec.
    rewrite Nat.min_0_r, Nat.sub_0_r. cbn [replicate app length]. f_equal.
    rewrite (IH (TB.allow tb key now).2 refilled now 0%nat).
    + by rewrite Nat.min_0_r, Nat.sub_0_r.
    + by rewrite Hrate'.
    + rewrite Hstored. apply lookup_insert_eq.
    + change (inject_Z (Z.of_nat 0)) with 0%Q. lra.
    + rewrite Hcap'. lia.
  - (* one token is taken *)
    rewrite Nat2Z.inj_succ in Htok, Hc'. unfold Z.succ in Htok, Hc'.
    rewrite inject_Z_plus in Htok, Hc'.
    assert (0 <= inject_Z (Z.of_nat c))%Q by (rewrite <- (Zle_Qle 0); lia).
    change (inject_Z 1) with 1%Q in *.
    assert (Ege : ge refilled 1 = true) by (apply ge_true; lra).
    rewrite Ege in Hdec, Hstored. rewrite Hdec.
    cbn [length Nat.min replicate app Nat.sub]. f_equal.
    apply (IH (TB.allow tb key now).2 (refilled - 1)%Q now c).
    + by rewrite Hrate'.
    + rewrite Hstored. apply lookup_insert_eq.
    + lra.
    + rewrite Hcap'. lia.
Qed.

End TokenBucketBursts.

(** X13.  Token bucket with refill rate 0 and capacity not negative, a key
    seen for the first time: the first [capacity] calls return [True] and
    every later call returns [False], whatever the clock readings are - the
    bucket is a one-time allowance that is never replenished. *)
Theorem token_bucket_with_rate_zero_is_a_one_time_burst
    (tb : TB.t) (key : string) (times : list Q) :
  (TB.refill_rate tb == 0)%Q →
  0 <= TB.capacity tb →
  TB.buckets tb !! key = None →
  let granted := Nat.min (length times) (Z.to_nat (TB.capacity tb)) in
  (run (TokenBucket tb) (calls_of key times)).1
    = replicate granted (Returned true)
        ++ replicate (length times - granted) (Returned false).
Proof.
  intros Hrate Hcap Hk granted.
  destruct times as [| now times]; [done |].
  (* the first call creates the bucket, full, and is served from it *)
  unfold calls_of. rewrite map_cons, run_cons. fold (calls_of key times).
  destruct (strategy_allow_token_bucket tb key now) as [-> ->].
  destruct (TB_allow_spec tb key now) as (Hdec & Hstored & Hrate' & Hcap').
  rewrite Hk in Hdec, Hstored. cbn [default] in Hdec, Hstored.
  unfold id in Hdec, Hstored. cbn [fst snd] in Hdec, Hstored.
  assert (Hrefilled :
    (TB.refill tb (inject_Z (TB.capacity tb)) now now
       == inject_Z (TB.capacity tb))%Q)
    by (rewrite TB_refill_same_instant; [done | lra]).
  set (refilled := TB.refill tb (inject_Z (TB.capacity tb)) now now) in *.
  assert (Hnat : (inject_Z (TB.capacity tb)
                  == inject_Z (Z.of_nat (Z.to_nat (TB.capacity tb))))%Q)
    by (by rewrite Z2Nat.id).
  cbn [fst]. subst granted. cbn [length].
  destruct (Z.to_nat (TB.capacity tb)) as [| c] eqn:Ec.
  - change (inject_Z (Z.of_nat 0)) with 0%Q in Hnat.
    assert (Ege : ge refilled 1 = false) by (apply ge_false; lra).
    rewrite Ege in Hdec, Hstored. rewrite Hdec.
    rewrite Nat.min_0_r, Nat.sub_0_r. cbn [replicate app]. f_equal.
    rewrite (TB_run_rate_zero key times (TB.allow tb key now).2
               refilled now 0%nat).
    + by rewrite Nat.min_0_r, Nat.sub_0_r.
    + by rewrite Hrate'.
    + rewrite Hstored. apply lookup_insert_eq.
    + change (inject_Z (Z.of_nat 0)) with 0%Q. lra.
    + rewrite Hcap'. lia.
  - rewrite Nat2Z.inj_succ in Hnat. unfold Z.succ in Hnat.
    rewrite inject_Z_plus in Hnat.
    assert (0 <= inject_Z (Z.of_nat c))%Q by (rewrite <- (Zle_Qle 0); lia).
    change (inject_Z 1) with 1%Q in *.
    assert (Ege : ge refilled 1 = true) by (apply ge_true; lra).
    rewrite Ege in Hdec, Hstored. rewrite Hdec.
    cbn [Nat.min replicate app Nat.sub]. f_equal.
    apply (TB_run_rate_zero key times (TB.allow tb key now).2
             (refilled - 1)%Q now c).
    + by rewrite Hrate'.
    + rewrite Hstored. apply lookup_insert_eq.
    + lra.
    + rewrite Hcap'. lia.
Qed.

Lemma token_bucket_with_rate_zero_is_a_one_time_burst_witness :
  (run (TokenBucket (TB.Build 0 2 ∅))
     (calls_of "a" [100 # 1; 5000 # 1; 7 # 1; 90000 # 1]%Q)).1
  = [Returned true; Returned true; Returned false; Returned false].
Proof.
  refine (token_bucket_with_rate_zero_is_a_one_time_burst
            (TB.Build 0 2 ∅) "a" [100 # 1; 5000 # 1; 7 # 1; 90000 # 1]%Q
            _ _ _).
  - reflexivity.
  - simpl. lia.
  - reflexivity.
Defined.

(** X14.  Token bucket with capacity not negative and any refill rate, a key
    seen for the first time: of [capacity + 1] calls at one clock reading the
    first [capacity] return [True] and the last one returns [False] - a new
    key can burst up to the capacity and no further. *)
Theorem token_bucket_initial_burst_is_the_capacity
    (tb : TB.t) (key : string) (now : Q) :
  0 <= TB.capacity tb →
  TB.buckets tb !! key = None →
  let n := Z.to_nat (TB.capacity tb) in
  (run (TokenBucket tb) (calls_of key (replicate (S n) now))).1
    = replicate n (Returned true) ++ [Returned false].
Proof.
  intros Hcap Hk n.
  cbn [replicate]. unfold calls_of. rewrite map_cons, run_cons.
  fold (calls_of key (replicate n now)).
  destruct (strategy_allow_token_bucket tb key now) as [-> ->].
  destruct (TB_allow_spec tb key now) as (Hdec & Hstored & Hrate' & Hcap').
  rewrite Hk in Hdec, Hstored. cbn [default fst snd] in Hdec, Hstored.
  assert (Hrefilled :
    (TB.refill tb (inject_Z (TB.capacity tb)) now now
       == inject_Z (TB.capacity tb))%Q)
    by (rewrite TB_refill_same_instant; [done | lra]).
  set (refilled := TB.refill tb (inject_Z (TB.capacity tb)) now now) in *.
  assert (Hnat : (inject_Z (TB.capacity tb) == inject_Z (Z.of_nat n))%Q)
    by (subst n; by rewrite Z2Nat.id).
  cbn [fst].
  destruct n as [| c] eqn:En.
  - change (inject_Z (Z.of_nat 0)) with 0%Q in Hnat.
    assert (Ege : ge refilled 1 = false) by (apply ge_false; lra).
    rewrite Hdec, Ege. done.
  - rewrite Nat2Z.inj_succ in Hnat. unfold Z.succ in Hnat.
    rewrite inject_Z_plus in Hnat.
    assert (0 <= inject_Z (Z.of_nat c))%Q by (rewrite <- (Zle_Qle 0); lia).
    change (inject_Z 1) with 1%Q in *.
    assert (Ege : ge refilled 1 = true) by (apply ge_true; lra).
    rewrite Ege in Hstored. rewrite Hdec, Ege.
    cbn [replicate app]. f_equal.
    (* the next calls use up what is left *)
    destruct (TB_run_burst key now c (TB.allow tb key now).2 (refilled - 1)%Q)
      as (tb' & tokens' & Hrun & _ & Hcap'' & Hk' & Htok').
    { rewrite Hstored. apply lookup_insert_eq. }
    { rewrite Hcap'. lra. }
    { lra. }
    rewrite replicate_cons_app.
    unfold calls_of. rewrite map_app. fold (calls_of key (replicate c now)).
    rewrite run_app, Hrun. cbn [fst snd map]. f_equal.
    (* and the last call finds no whole token *)
    rewrite run_cons. cbn [run fst].
    destruct (strategy_allow_token_bucket tb' key now) as [-> _].
    destruct (TB_allow_spec tb' key now) as (Hdec' & _).
    rewrite Hk' in Hdec'. cbn [default] in Hdec'. unfold id in Hdec'.
    cbn [fst snd] in Hdec'.
    assert (Hrefilled' : (TB.refill tb' tokens' now now == tokens')%Q).
    { apply TB_refill_same_instant. rewrite Hcap'', Hcap'. lra. }
    assert (Ege' : ge (TB.refill tb' tokens' now now) 1 = false)
      by (apply ge_false; lra).
    by rewrite Hdec', Ege'.
Qed.

Lemma token_bucket_initial_burst_is_the_capacity_witness :
  (run (TokenBucket (TB.Build (7 # 2) 3 ∅))
     (calls_of "a" (replicate 4 (100 # 1)%Q))).1
  = [Returned true; Returned true; Returned true; Returned false].
Proof.
  refine (token_bucket_initial_burst_is_the_capacity
            (TB.Build (7 # 2) 3 ∅) "a" (100 # 1) _ _).
  - simpl. lia.
  - reflexivity.
Defined.

(** ** Token bucket: the long-run rate *)


Section TokenBucketRate.

Variable key : string.



End TokenBucketRate.




(** X16.  Token bucket, refill rate not negative: waiting never hurts.  If
    a call for a key at some clock reading would return [True], so would a
    call at any later reading instead. *)
Theorem token_bucket_waiting_never_hurts
    (tb : TB.t) (key : string) (now later : Q) :
  (0 <= TB.refill_rate tb)%Q →
  (now <= later)%Q →
  (TB.allow tb key now).1 = true →
  (TB.allow tb key later).1 = true.
Proof.
  intros Hrate Hlater.
  destruct (TB_allow_spec tb key now) as (-> & _).
  destruct (TB_allow_spec tb key later) as (-> & _).
  rewrite !ge_true. unfold TB.refill. rewrite !min_ge_iff.
  destruct (TB.buckets tb !! key) as [[tokens last_time] |];
    cbn [default fst snd]; unfold id; cbn [fst snd]; intros [Hcap Hnow].
  - split; [done |].
    assert ((now - last_time) * TB.refill_rate tb
            <= (later - last_time) * TB.refill_rate tb)%Q
      by (apply Qmult_le_compat_r; lra).
    lra.
  - split; [done |].
    assert (((later - later) * TB.refill_rate tb == 0)%Q) by ring.
    lra.
Qed.

Lemma token_bucket_waiting_never_hurts_witness :
  (TB.allow (TB.Build 1 5 {["a" := (1 # 2, 10 # 1)%Q]}) "a" (12 # 1)).1 = true.
Proof.
  refine (token_bucket_waiting_never_hurts
            (TB.Build 1 5 {["a" := (1 # 2, 10 # 1)%Q]}) "a"
            (21 # 2) (12 # 1) _ _ _).
  - discriminate.
  - discriminate.
  - reflexivity.
Defined.

(** ** The middleware *)





(** X17.  The middleware fails - the exception of [allow] passing through
    it - exactly when the limiter holds a fixed window counter with window
    size 0; then it fails with [ZeroDivisionError] for every request.  With
    any other limiter every request is either let through or answered with
    the 429 response. *)
Theorem middleware_fails_exactly_for_window_size_zero
    (rl : RateLimiter.t) (remote_addr : string) (now : Q) :
  ((∃ fw, RateLimiter.strategy rl = FixedWindowCounter fw
          ∧ FW.window_size fw = 0) →
   App.rate_limit_middleware rl remote_addr now = Raised ZeroDivisionError)
  ∧ ((∀ fw, RateLimiter.strategy rl = FixedWindowCounter fw →
            FW.window_size fw ≠ 0) →
     ∃ rl',
       App.rate_limit_middleware rl remote_addr now = Returned (None, rl')
       ∨ App.rate_limit_middleware rl remote_addr now
         = Returned (Some App.too_many_requests, rl')).
Proof.
  unfold App.rate_limit_middleware, RateLimiter.allow_request.
  destruct rl as [[fw | sw | tb]]; cbn [RateLimiter.strategy strategy_allow].
  - split.
    + intros (fw' & [= <-] & Hw). unfold FW.allow, FW.window_start_of, mod_.
      by rewrite Hw.
    + intros Hw. specialize (Hw fw eq_refl).
      unfold FW.allow, FW.window_start_of, mod_.
      destruct (Z.eqb_spec (FW.window_size fw) 0); [done |].
      destruct (default _ (FW.store fw !! remote_addr)) as [count last_window].
      destruct (negb _); [| destruct (count <? _)]; simpl; eauto.
  - split; [intros (fw & [=] & _) |]. intros _.
    destruct (SW.allow sw remote_addr now) as [[|] sw']; simpl; eauto.
  - split; [intros (fw & [=] & _) |]. intros _.
    destruct (TB.allow tb remote_addr now) as [[|] tb']; simpl; eauto.
Qed.

Lemma middleware_fails_exactly_for_window_size_zero_witness :
  App.rate_limit_middleware
    (RateLimiter.init (FixedWindowCounter (FW.Build 0 5 ∅))) "10.0.0.1" (100 # 1)
  = Raised ZeroDivisionError
  ∧ ∃ rl',
      App.rate_limit_middleware App.rate_limiter "10.0.0.1" (100 # 1)
        = Returned (None, rl')
      ∨ App.rate_limit_middleware App.rate_limiter "10.0.0.1" (100 # 1)
        = Returned (Some App.too_many_requests, rl').
Proof.
  split.
  - refine (proj1 (middleware_fails_exactly_for_window_size_zero
                     (RateLimiter.init (FixedWindowCounter (FW.Build 0 5 ∅)))
                     "10.0.0.1" (100 # 1)) _).
    exists (FW.Build 0 5 ∅). split; reflexivity.
  - refine (proj2 (middleware_fails_exactly_for_window_size_zero
                     App.rate_limiter "10.0.0.1" (100 # 1)) _).
    intros fw Hfw. discriminate Hfw.
Defined.



(** ** Configurations that allow nothing *)

Lemma run_all_denied (P : RateLimitStrategy → Prop) :
  (∀ s key now, P s →
     decision (strategy_allow s key now) = Returned false
     ∧ P (after s (strategy_allow s key now))) →
  ∀ (h : list (string * Q)) (s : RateLimitStrategy),
    P s → Forall (λ o, o = Returned false) (run s h).1.
Proof.
  intros Hstep. induction h as [| [key now] h IH]; intros s Hs; [constructor |].
  rewrite run_cons. cbn [fst]. destruct (Hstep s key now Hs) as [Hd Hs'].
  constructor; [done | by apply IH].
Qed.

(** X19.  The constructors accept a maximum or a capacity below 1, and such
    a limiter denies every call of every key at every clock reading: a new
    fixed window counter with [max_requests <= 0] (and a window size other
    than 0), a sliding window log with [max_requests <= 0] in any state, and
    a token bucket with [capacity <= 0] in any state, whatever its refill
    rate. *)
Theorem limiters_with_no_allowance_deny_everything (h : list (string * Q)) :
  (∀ window_size max_requests : Z,
     window_size ≠ 0 → max_requests <= 0 →
     Forall (λ o, o = Returned false)
       (run (FixedWindowCounter (FW.Build window_size max_requests ∅)) h).1)
  ∧ (∀ sw : SW.t,
       SW.max_requests sw <= 0 →
       Forall (λ o, o = Returned false) (run (SlidingWindowLog sw) h).1)
  ∧ (∀ tb : TB.t,
       TB.capacity tb <= 0 →
       Forall (λ o, o = Returned false) (run (TokenBucket tb) h).1).
Proof.
  split; [| split].
  - intros w N Hw HN.
    apply (run_all_denied
             (λ s, s = FixedWindowCounter (FW.Build w N ∅))); [| done].
    intros s key now ->. cbn [strategy_allow].
    unfold FW.allow, FW.window_start_of, mod_. cbn [FW.window_size FW.store].
    destruct (Z.eqb_spec w 0); [done |].
    rewrite lookup_empty. cbn [default]. rewrite Z.eqb_refl. cbn [negb].
    cbn [FW.max_requests].
    by destruct (Z.ltb_spec 0 N); [lia |].
  - intros sw HN.
    apply (run_all_denied
             (λ s, ∃ sw', s = SlidingWindowLog sw'
                          ∧ SW.max_requests sw' <= 0)); [| by exists sw].
    intros s key now (sw' & -> & HN').
    destruct (strategy_allow_sliding_window sw' key now) as [-> ->].
    destruct (SW_allow_stored_log sw' key now) as [_ Hdec].
    destruct (SW_allow_keeps_parameters sw' key now) as [_ Hmax].
    split.
    + rewrite Hdec. f_equal. apply Z.ltb_ge. unfold len. lia.
    + eexists. split; [done |]. by rewrite Hmax.
  - intros tb Hcap.
    apply (run_all_denied
             (λ s, ∃ tb', s = TokenBucket tb'
                          ∧ TB.capacity tb' <= 0)); [| by exists tb].
    intros s key now (tb' & -> & Hcap').
    destruct (strategy_allow_token_bucket tb' key now) as [-> ->].
    destruct (TB_allow_spec tb' key now) as (Hdec & _ & _ & Hcap'').
    split.
    + rewrite Hdec. f_equal. apply ge_false.
      set (entry := default _ (TB.buckets tb' !! key)).
      pose proof (min_le_l (inject_Z (TB.capacity tb'))
                    (entry.1 + (now - entry.2) * TB.refill_rate tb')) as Hmin.
      fold (TB.refill tb' entry.1 entry.2 now) in Hmin.
      assert (inject_Z (TB.capacity tb') <= 0)%Q
        by (by rewrite <- (Zle_Qle _ 0)).
      lra.
    + eexists. split; [done |]. by rewrite Hcap''.
Qed.

Lemma limiters_with_no_allowance_deny_everything_witness :
  let h := [("a", 100 # 1); ("b", 7 # 1); ("a", 5000 # 1)]%Q in
  Forall (λ o, o = Returned false)
    (run (FixedWindowCounter (FW.Build 10 0 ∅)) h).1
  ∧ Forall (λ o, o = Returned false)
      (run (SlidingWindowLog (SW.Build 10 (-1) ∅)) h).1
  ∧ Forall (λ o, o = Returned false)
      (run (TokenBucket (TB.Build 100 0 ∅)) h).1.
Proof.
  intros h.
  destruct (limiters_with_no_allowance_deny_everything h) as (Hfw & Hsw & Htb).
  split; [| split].
  - apply Hfw; lia.
  - apply Hsw. simpl. lia.
  - apply Htb. simpl. lia.
Defined.
